(** * Rate-Monotonic partitioning and simulation (main.py)

    A shallow embedding of [main.py]: the task / job / processor records,
    the Liu & Layland admission test, the First-Fit partitioner
    [partition_tasks_ff_rm] and the discrete-event loop of
    [run_simulation], followed by the properties proved about them.

    Modelling choices.

    - Python [int] is [Z].  [Task.period], [Task.execution_time] and
      [max_time] are annotated [int].
    - Floats of the partitioner ([Task.utilization], [sum], [math.pow],
      the comparison with the bound) are kept abstract: the class
      [PyFloat] names the binary64 operations the code calls, and every
      function of the partitioner is written against that interface, so
      a theorem about it holds whatever the rounding is.  What Python
      decides on the integers before rounding is concrete: a true
      division by zero raises [ZeroDivisionError], an integer too large
      for a binary64 raises [OverflowError].
    - Simulated time.  [current_time] starts at [0.0]; every other time
      of [run_simulation] is a sum or a difference of [int] periods,
      [int] execution times and the [int] horizon, hence an
      integer-valued float, which binary64 holds exactly below 2^53.
      Time is therefore [Z]; [float('inf')] is the constructor [Inf] of
      [etime].  On integer-valued operands the tolerance tests
      [x <= 1e-9] and [abs(x) < 1e-9] are [x <= 0] and [x = 0].
    - [list.sort(key=...)] and [sorted(..., key=...)] are stable; the
      result of a stable sort is determined by its input
      ([stable_sort_unique]), so an insertion sort stands for them.
    - Exceptions are the constructor [Raise] of [result]; the [while]
      loop takes fuel. *)

From Stdlib Require Import ZArith Lia Reals Lra.
From stdpp Require Import gmap strings list sorting pretty.

Local Open Scope Z_scope.

(** ** Exceptions *)

Inductive exn : Set := ZeroDivisionError | OverflowError.

Inductive result (A : Type) : Type :=
| Ok (a : A)
| Raise (e : exn).
Arguments Ok {A} a.
Arguments Raise {A} e.

#[global] Instance result_ret : MRet result := fun A a => Ok a.
#[global] Instance result_bind : MBind result := fun A B f m =>
  match m with
  | Ok a => f a
  | Raise e => Raise e
  end.

(** ** Floats of the partitioner *)

Class PyFloat : Type := {
  float : Type;
  (** [float(n)] for an [int] in range, and the literals [1.0], [2]. *)
  f_of_int : Z -> float;
  (** [a / b] on two [int]s, [b] non-zero, quotient in range. *)
  f_truediv : Z -> Z -> float;
  f_add : float -> float -> float;
  f_sub : float -> float -> float;
  f_mul : float -> float -> float;
  (** [math.pow]. *)
  f_pow : float -> float -> float;
  (** The builtin [sum] over floats, started from the [int] [0]. *)
  f_sum : list float -> float;
  (** [x <= y]. *)
  f_le : float -> float -> bool
}.

(** Smallest magnitude whose rounding to binary64 overflows: the midpoint
    between the largest finite binary64 and 2^1024. *)
Definition float_int_limit : Z := 2 ^ 1024 - 2 ^ 970.

(** [sys.maxsize]: no list is longer. *)
Definition PY_SSIZE_T_MAX : Z := 2 ^ 63 - 1.

Section Floats.
Context {F : PyFloat}.

(** The conversion of an [int] operand of a float operation. *)
Definition py_float_of_int (n : Z) : result float :=
  if Z.abs n <? float_int_limit then Ok (f_of_int n) else Raise OverflowError.

(** [a / b] on two [int]s. *)
Definition py_truediv (a b : Z) : result float :=
  if b =? 0 then Raise ZeroDivisionError
  else if float_int_limit * Z.abs b <=? Z.abs a then Raise OverflowError
  else Ok (f_truediv a b).

End Floats.

(** ** Domain model *)

Record Task : Set := mkTask {
  id : string;
  period : Z;
  execution_time : Z
}.

#[global] Instance Task_eq_dec : EqDecision Task.
Proof. solve_decision. Defined.

Definition priority (t : Task) : Z := period t.

Record Job : Set := mkJob {
  task : Task;
  job_id : Z;
  arrival_time : Z;
  remaining_time : Z;
  absolute_deadline : Z;
  completed : bool
}.

(** One segment [(start_time, end_time, task_id)] of the execution log. *)
Definition segment : Set := Z * Z * string.
Definition seg_start (e : segment) : Z := fst (fst e).
Definition seg_end (e : segment) : Z := snd (fst e).
Definition seg_task (e : segment) : string := snd e.

Record Processor : Set := mkProcessor {
  proc_id : Z;
  assigned_tasks : list Task;
  active_job : option Job;
  ready_queue : list Job;
  execution_log : list segment
}.

(** [Processor(pid)]. *)
Definition new_processor (pid : Z) : Processor :=
  mkProcessor pid [] None [] [].

(** [Processor.add_task]. *)
Definition add_task (p : Processor) (t : Task) : Processor :=
  mkProcessor (proc_id p) (assigned_tasks p ++ [t]) (active_job p)
              (ready_queue p) (execution_log p).

Definition len {A : Type} (l : list A) : Z := Z.of_nat (length l).

(** ** Stable sort by an integer key *)

Section StableSort.
Context {A : Type} (key : A -> Z).

Fixpoint insert_by_key (x : A) (l : list A) : list A :=
  match l with
  | [] => [x]
  | y :: l' => if key x <=? key y then x :: y :: l' else y :: insert_by_key x l'
  end.

Fixpoint sort_by_key (l : list A) : list A :=
  match l with
  | [] => []
  | x :: l' => insert_by_key x (sort_by_key l')
  end.

(** The elements of key [k], in the order they stand in [l]. *)
Definition with_key (k : Z) (l : list A) : list A :=
  List.filter (fun x => key x =? k) l.

Definition key_le (x y : A) : Prop := key x <= key y.

(** [l'] is [l] reordered without exchanging two elements of equal key. *)
Definition stable_reordering (l l' : list A) : Prop :=
  forall k, with_key k l' = with_key k l.

End StableSort.

(** The sort key [lambda j: j.task.period]. *)
Definition job_period (j : Job) : Z := period (task j).

(** [Processor.sort_ready_queue]. *)
Definition sort_ready_queue (p : Processor) : Processor :=
  mkProcessor (proc_id p) (assigned_tasks p) (active_job p)
              (sort_by_key job_period (ready_queue p))
              (execution_log p).

(** ** Admission test and partitioner *)

Section Partitioner.
Context {F : PyFloat}.

(** [Task.utilization]. *)
Definition utilization (t : Task) : result float :=
  py_truediv (execution_time t) (period t).

(** The generator [t.utilization for t in tasks], evaluated left to right. *)
Fixpoint utilizations (ts : list Task) : result (list float) :=
  match ts with
  | [] => Ok []
  | t :: ts' => u ← utilization t; us ← utilizations ts'; Ok (u :: us)
  end.

(** [Processor.utilization]. *)
Definition proc_utilization (p : Processor) : result float :=
  us ← utilizations (assigned_tasks p); Ok (f_sum us).

Definition liu_layland_bound (n : Z) : result float :=
  if n =? 0 then Ok (f_of_int 1)
  else
    q ← py_truediv 1 n;
    let r := f_sub (f_pow (f_of_int 2) q) (f_of_int 1) in
    nf ← py_float_of_int n;
    Ok (f_mul nf r).

(** The test of the inner loop of [partition_tasks_ff_rm] for one
    processor: [current_u + task.utilization <= liu_layland_bound(new_n)]. *)
Definition fits (p : Processor) (t : Task) : result bool :=
  let current_n := len (assigned_tasks p) in
  let new_n := current_n + 1 in
  current_u ← proc_utilization p;
  tu ← utilization t;
  b ← liu_layland_bound new_n;
  Ok (f_le (f_add current_u tu) b).

(** The inner [for proc in processors] loop: [Some] of the updated list
    when the task was assigned (the [break]), [None] when the loop ran to
    its end with [assigned] still false. *)
Fixpoint first_fit (t : Task) (ps : list Processor)
  : result (option (list Processor)) :=
  match ps with
  | [] => Ok None
  | p :: ps' =>
      ok ← fits p t;
      if ok : bool then Ok (Some (add_task p t :: ps'))
      else r ← first_fit t ps'; Ok (option_map (cons p) r)
  end.

(** One turn of the outer loop. *)
Definition place (ps : list Processor) (t : Task) : result (list Processor) :=
  r ← first_fit t ps;
  match r with
  | Some ps' => Ok ps'
  | None => Ok (ps ++ [add_task (new_processor (len ps)) t])
  end.

Fixpoint place_all (ps : list Processor) (ts : list Task)
  : result (list Processor) :=
  match ts with
  | [] => Ok ps
  | t :: ts' => ps' ← place ps t; place_all ps' ts'
  end.

Definition partition_tasks_ff_rm (tasks : list Task) : result (list Processor) :=
  let sorted_tasks := sort_by_key period tasks in
  place_all [new_processor 0] sorted_tasks.

End Partitioner.

(** ** Discrete-event simulation *)

(** A float of the event computation: an integer-valued time or
    [float('inf')]. *)
Inductive etime : Set := Fin (t : Z) | Inf.

(** [a < b] for a finite [a]. *)
Definition lt_etime (a : Z) (b : etime) : bool :=
  match b with
  | Fin b => a <? b
  | Inf => true
  end.

(** [min(a, b)]: the second argument only when it is strictly smaller. *)
Definition min_etime (a b : etime) : etime :=
  match b with
  | Fin tb => if lt_etime tb a then b else a
  | Inf => a
  end.

(** [x <= 1e-9] and [abs(x) < 1e-9] on an integer-valued float. *)
Definition le_eps (x : Z) : bool := x <=? 0.
Definition abs_lt_eps (x : Z) : bool := Z.abs x <? 1.

(** A Python [dict] whose keys are tasks: the entries in insertion order,
    one per key. *)
Definition task_dict : Set := list (Task * Z).

Fixpoint dict_set (d : task_dict) (k : Task) (v : Z) : task_dict :=
  match d with
  | [] => [(k, v)]
  | (k', v') :: d' =>
      if decide (k' = k) then (k', v) :: d' else (k', v') :: dict_set d' k v
  end.

(** [{task: 0.0 for task in tasks}]. *)
Definition arrivals_at_zero (tasks : list Task) : task_dict :=
  fold_left (fun d t => dict_set d t 0) tasks [].

(** A processor with [task_next_arrival[proc]], the entry of the outer
    dictionary that belongs to it.  The processors of the list are taken
    to be distinct objects. *)
Record Core : Set := mkCore {
  proc : Processor;
  next_arrivals : task_dict
}.

Record SimState : Set := mkSim {
  cores : list Core;
  job_counters : gmap string Z;
  current_time : Z
}.

Definition on_proc (f : Processor -> Processor) (c : Core) : Core :=
  mkCore (f (proc c)) (next_arrivals c).

(** [{task.id: 1 for proc in processors for task in proc.assigned_tasks}]. *)
Definition initial_counters (processors : list Processor) : gmap string Z :=
  fold_left (fun m t => <[id t := 1]> m)
            (concat (map assigned_tasks processors)) ∅.

Definition initial_state (processors : list Processor) : SimState :=
  mkSim (map (fun p => mkCore p (arrivals_at_zero (assigned_tasks p))) processors)
        (initial_counters processors) 0.

(** *** Step A: the next event *)

Definition scan_arrivals (d : task_dict) (acc : etime) : etime :=
  fold_left (fun next_arrival e =>
               if lt_etime (snd e) next_arrival then Fin (snd e) else next_arrival)
            d acc.

Definition next_arrival (cs : list Core) : etime :=
  fold_left (fun acc c => scan_arrivals (next_arrivals c) acc) cs Inf.

Definition next_completion (now : Z) (cs : list Core) : etime :=
  fold_left (fun acc c =>
               match active_job (proc c) with
               | Some j =>
                   let completion_time := now + remaining_time j in
                   if lt_etime completion_time acc then Fin completion_time else acc
               | None => acc
               end)
            cs Inf.

(** The cap at [max_time]; [None] is the [break]. *)
Definition cap_event (max_time now : Z) (e : etime) : option Z :=
  let capped := if max_time =? now then None else Some max_time in
  match e with
  | Fin t => if max_time <? t then capped else Some t
  | Inf => capped
  end.

(** *** Step B: time passes *)

(** The update of [execution_log] for the interval [[now, next)] run by
    task [tid]. *)
Definition record_execution (log : list segment) (now next : Z) (tid : string)
  : list segment :=
  match last log with
  | Some (last_start, last_end, last_tid) =>
      if bool_decide (last_tid = tid) && (last_end =? now)
      then removelast log ++ [(last_start, next, last_tid)]
      else log ++ [(now, next, tid)]
  | None => log ++ [(now, next, tid)]
  end.

Definition set_remaining (j : Job) (r : Z) : Job :=
  mkJob (task j) (job_id j) (arrival_time j) r (absolute_deadline j) (completed j).

Definition advance (now next : Z) (p : Processor) : Processor :=
  match active_job p with
  | Some j =>
      let dt := next - now in
      let j' := set_remaining j (remaining_time j - dt) in
      mkProcessor (proc_id p) (assigned_tasks p) (Some j') (ready_queue p)
                  (record_execution (execution_log p) now next (id (task j')))
  | None => p
  end.

(** *** Step C: completions and arrivals *)

Definition set_active (p : Processor) (a : option Job) : Processor :=
  mkProcessor (proc_id p) (assigned_tasks p) a (ready_queue p) (execution_log p).

Definition set_queue (p : Processor) (q : list Job) : Processor :=
  mkProcessor (proc_id p) (assigned_tasks p) (active_job p) q (execution_log p).

(** The finished job is marked [completed] and dropped: nothing refers to
    it afterwards. *)
Definition complete (p : Processor) : Processor :=
  match active_job p with
  | Some j => if le_eps (remaining_time j) then set_active p None else p
  | None => p
  end.

(** The loop over [list(task_next_arrival[proc].keys())].  A turn reads
    and writes the entry of its own key only, so the loop is a pass over
    the entries in order; the counters and the ready queue are threaded
    through.  Every identifier looked up in [job_counters] was inserted
    by [initial_counters] ([counters_cover_preserved]). *)
Fixpoint handle_arrivals (now : Z) (d : task_dict) (m : gmap string Z)
         (q : list Job) : task_dict * gmap string Z * list Job :=
  match d with
  | [] => ([], m, q)
  | (tk, arrival) :: d' =>
      if abs_lt_eps (arrival - now) then
        let new_job :=
          mkJob tk (m !!! id tk) now (execution_time tk) (now + period tk) false in
        let m1 := <[id tk := m !!! id tk + 1]> m in
        let '(d'', m2, q2) := handle_arrivals now d' m1 (q ++ [new_job]) in
        ((tk, arrival + period tk) :: d'', m2, q2)
      else
        let '(d'', m2, q2) := handle_arrivals now d' m q in
        ((tk, arrival) :: d'', m2, q2)
  end.

Fixpoint arrivals_all (now : Z) (cs : list Core) (m : gmap string Z)
  : list Core * gmap string Z :=
  match cs with
  | [] => ([], m)
  | c :: cs' =>
      let '(d, m1, q) :=
        handle_arrivals now (next_arrivals c) m (ready_queue (proc c)) in
      let '(cs'', m2) := arrivals_all now cs' m1 in
      (mkCore (set_queue (proc c) q) d :: cs'', m2)
  end.

(** *** Step D: the dispatcher *)

(** The preemption check: the incumbent goes back to the tail of the
    ready queue when some ready job has a strictly smaller period. *)
Definition preempt (p : Processor) : Processor :=
  match active_job p with
  | Some a =>
      let better_candidate :=
        existsb (fun j => period (task j) <? period (task a)) (ready_queue p) in
      if better_candidate
      then mkProcessor (proc_id p) (assigned_tasks p) None
                       (ready_queue p ++ [a]) (execution_log p)
      else p
  | None => p
  end.

(** [if not proc.active_job and proc.ready_queue: ... pop(0)]. *)
Definition select (p : Processor) : Processor :=
  match active_job p, ready_queue p with
  | None, j :: q =>
      mkProcessor (proc_id p) (assigned_tasks p) (Some j) q (execution_log p)
  | _, _ => p
  end.

Definition dispatch (p : Processor) : Processor :=
  select (sort_ready_queue (preempt p)).

(** *** The loop *)

Inductive step_result : Set :=
| Break
| Continue (s : SimState).

(** The state handed to the dispatcher: steps A to C of one turn. *)
Definition before_dispatch (max_time : Z) (s : SimState) : option SimState :=
  let now := current_time s in
  let next_event_time :=
    min_etime (next_arrival (cores s)) (next_completion now (cores s)) in
  match cap_event max_time now next_event_time with
  | None => None
  | Some next =>
      let dt := next - now in
      let cs1 := if 0 <? dt then map (on_proc (advance now next)) (cores s)
                 else cores s in
      let cs2 := map (on_proc complete) cs1 in
      let '(cs3, m) := arrivals_all next cs2 (job_counters s) in
      Some (mkSim cs3 m next)
  end.

Definition loop_body (max_time : Z) (s : SimState) : step_result :=
  match before_dispatch max_time s with
  | None => Break
  | Some s' =>
      Continue (mkSim (map (on_proc dispatch) (cores s')) (job_counters s')
                      (current_time s'))
  end.

Fixpoint sim_loop (fuel : nat) (max_time : Z) (s : SimState) : option SimState :=
  if current_time s <? max_time then
    match fuel with
    | O => None
    | S fuel' =>
        match loop_body max_time s with
        | Break => Some s
        | Continue s' => sim_loop fuel' max_time s'
        end
    end
  else Some s.

(** [run_simulation] mutates the processors it is given; the model
    returns them as they stand when the loop is left, [None] when the
    fuel runs out first. *)
Definition run_simulation (fuel : nat) (processors : list Processor)
           (max_time : Z) : option (list Processor) :=
  option_map (fun s => map proc (cores s))
             (sim_loop fuel max_time (initial_state processors)).

(** The states at the head of the [while] loop. *)
Inductive reachable (max_time : Z) (s0 : SimState) : SimState -> Prop :=
| reach_start : reachable max_time s0 s0
| reach_step s s' :
    reachable max_time s0 s ->
    current_time s < max_time ->
    loop_body max_time s = Continue s' ->
    reachable max_time s0 s'.

(** ** Scenarios of the repository *)

Definition T1 : Task := mkTask "T1" 2 1.
Definition T2 : Task := mkTask "T2" 5 2.
Definition T3 : Task := mkTask "T3" 4 2.

Definition cpu0 : Processor := add_task (add_task (add_task (new_processor 0) T1) T2) T3.

(** The overloaded pair used against arrival order: H runs every 2 for 1,
    A every 4 for 3. *)
Definition task_H : Task := mkTask "H" 2 1.
Definition task_A : Task := mkTask "A" 4 3.
Definition cpu_HA : Processor := add_task (add_task (new_processor 0) task_H) task_A.

(** ** Exact real arithmetic as floats

    The interface read over the reals: rounding is left out.  It serves
    where a statement needs one concrete arithmetic. *)

Definition ideal_float : PyFloat := {|
  float := R;
  f_of_int := IZR;
  f_truediv := fun a b => (IZR a / IZR b)%R;
  f_add := Rplus;
  f_sub := Rminus;
  f_mul := Rmult;
  f_pow := Rpower;
  f_sum := fun l => fold_right Rplus 0%R l;
  f_le := fun x y => if Rle_dec x y then true else false
|}.

(** The tasks the data model admits: a positive period and a positive
    execution time no longer than the period. *)
Definition valid_task (t : Task) : Prop :=
  0 < period t /\ 0 < execution_time t /\ execution_time t <= period t.

#[global] Instance valid_task_dec t : Decision (valid_task t).
Proof. unfold valid_task. apply _. Defined.

Section Specifications.
Context {F : PyFloat}.

(** The formula of the admission test, every conversion in range. *)
Definition bound_formula (n : Z) : float :=
  if n =? 0 then f_of_int 1
  else f_mul (f_of_int n) (f_sub (f_pow (f_of_int 2) (f_truediv 1 n)) (f_of_int 1)).

(** Every task of every processor, processor by processor. *)
Definition all_assigned (ps : list Processor) : list Task :=
  concat (map assigned_tasks ps).

(** The admission test as the specification words it: the utilization of
    the processor before the insertion plus that of the task, against the
    bound for one task more than the processor holds. *)
Definition admission_test (p : Processor) (t : Task) (verdict : bool) : Prop :=
  exists current_u tu b,
    proc_utilization p = Ok current_u /\
    utilization t = Ok tu /\
    liu_layland_bound (len (assigned_tasks p) + 1) = Ok b /\
    verdict = f_le (f_add current_u tu) b.

(** First-Fit for one task, as the specification words it: the task goes
    to the first processor, in creation order, that admits it; when none
    does, a processor numbered by the current count is appended with the
    task alone. *)
Definition first_fit_spec (ps : list Processor) (t : Task)
           (ps' : list Processor) : Prop :=
  (exists (i : nat) (p : Processor),
      ps !! i = Some p /\
      admission_test p t true /\
      (forall (j : nat) (q : Processor),
          (j < i)%nat -> ps !! j = Some q -> admission_test q t false) /\
      ps' = <[i := add_task p t]> ps)
  \/
  ((forall q : Processor, q ∈ ps -> admission_test q t false) /\
   ps' = ps ++ [mkProcessor (len ps) [t] None [] []]).

Inductive placed_in_order : list Processor -> list Task -> list Processor -> Prop :=
| placed_nil ps : placed_in_order ps [] ps
| placed_cons ps t ps1 ts ps' :
    first_fit_spec ps t ps1 ->
    placed_in_order ps1 ts ps' ->
    placed_in_order ps (t :: ts) ps'.

(** The processor of index [i] is the only one that holds [t]. *)
Definition only_on (ps : list Processor) (t : Task) (i : nat) : Prop :=
  (exists p, ps !! i = Some p /\ t ∈ assigned_tasks p) /\
  (forall (j : nat) (q : Processor),
      ps !! j = Some q -> t ∈ assigned_tasks q -> j = i).

End Specifications.


(** ** Vocabulary of the simulation properties *)

(** The jobs a processor is running: the content of its one slot. *)
Definition running (p : Processor) : list Job :=
  match active_job p with
  | Some j => [j]
  | None => []
  end.

(** The jobs a processor owns. *)
Definition jobs_of (p : Processor) : list Job := running p ++ ready_queue p.






Definition segments_ordered (log : list segment) : Prop :=
  forall (i j : nat) (e1 e2 : segment),
    (i < j)%nat -> log !! i = Some e1 -> log !! j = Some e2 ->
    seg_end e1 <= seg_start e2 /\ seg_start e1 <= seg_start e2.






(** Every identifier of the arrival tables has a counter. *)
Definition counters_cover (s : SimState) : Prop :=
  forall c e, c ∈ cores s -> e ∈ next_arrivals c ->
              is_Some (job_counters s !! id (fst e)).

(** [n] turns of the loop, when the guard holds at each of them and none
    leaves by [break]. *)
Fixpoint run_turns (n : nat) (max_time : Z) (s : SimState) : option SimState :=
  match n with
  | O => Some s
  | S n' =>
      if current_time s <? max_time then
        match loop_body max_time s with
        | Break => None
        | Continue s' => run_turns n' max_time s'
        end
      else None
  end.

(** Jobs of equal period stand in the order of their arrival times. *)
Definition arrival_ordered (q : list Job) : Prop :=
  forall (i j : nat) (a b : Job),
    (i < j)%nat -> q !! i = Some a -> q !! j = Some b ->
    job_period a = job_period b -> arrival_time a <= arrival_time b.


(** The scenario of [test_ffrm.py] and the single-task scenario. *)
Definition F1 : Task := mkTask "T1" 2 1.
Definition F2 : Task := mkTask "T2" 2 1.
Definition F3 : Task := mkTask "T3" 5 4.
Definition task_S : Task := mkTask "S" 10 3.
Definition cpu_S : Processor := add_task (new_processor 0) task_S.

(** ** Vocabulary of the further properties *)

(** The processor at index [i] carries the identifier [i]. *)
Definition ids_in_order (ps : list Processor) : Prop :=
  forall (i : nat) (p : Processor), ps !! i = Some p -> proc_id p = Z.of_nat i.

(** A processor holding just the tasks [ts]: the state of a processor of
    the partitioner when those were its tasks. *)
Definition holding (pid : Z) (ts : list Task) : Processor :=
  mkProcessor pid ts None [] [].

(** A task list with a zero period, for the error path of the partitioner. *)
Definition task_Z : Task := mkTask "Z" 0 1.

(** Two light tasks that share a processor. *)
Definition G1 : Task := mkTask "G1" 10 1.
Definition G2 : Task := mkTask "G2" 10 1.




(** What a turn never touches of a processor. *)
Definition frame_of (p : Processor) : Z * list Task :=
  (proc_id p, assigned_tasks p).

(** ** The horizon computed by the main block *)

(** [a // b] on two [int]s: floor division. *)
Definition py_floordiv (a b : Z) : result Z :=
  if b =? 0 then Raise ZeroDivisionError else Ok (a / b).

(** [lcm(a, b)]: [abs(a*b) // math.gcd(a, b)]. *)
Definition lcm (a b : Z) : result Z :=
  py_floordiv (Z.abs (a * b)) (Z.gcd a b).

(** The loop [for t in tasks: hyperperiod = lcm(hyperperiod, t.period)]. *)
Fixpoint hyperperiod_from (h : Z) (tasks : list Task) : result Z :=
  match tasks with
  | [] => Ok h
  | t :: ts => h' ← lcm h (period t); hyperperiod_from h' ts
  end.

(** [hyperperiod = 1], then the loop. *)
Definition hyperperiod (tasks : list Task) : result Z :=
  hyperperiod_from 1 tasks.

(** The tasks of period zero. *)
Definition zero_periods (tasks : list Task) : list Task :=
  List.filter (fun t => period t =? 0) tasks.

(** ** The Gantt chart

    [print_gantt] returns nothing and prints; the model returns the
    strings handed to [print], one per call.  Strings are sequences of
    one-byte characters: task identifiers are taken to be ASCII. *)

Definition newline : string := String (Ascii.ascii_of_nat 10) "".

Fixpoint repeat_string (s : string) (n : nat) : string :=
  match n with
  | O => ""
  | S n' => s +:+ repeat_string s n'
  end.

(** [s * n]: empty when [n] is not positive. *)
Definition py_repeat (s : string) (n : Z) : string :=
  repeat_string s (Z.to_nat n).

(** The format [{x:<w}] on a string. *)
Definition ljust (w : nat) (s : string) : string :=
  s +:+ repeat_string " " (w - String.length s).

(** [str] of an [int]. *)
Definition str_of_int (z : Z) : string := pretty z.

(** [range(n)]. *)
Definition range (n : Z) : list Z := map Z.of_nat (seq 0 (Z.to_nat n)).

(** The search of the log for slot [t]: the first segment with
    [start <= t + 0.5 < end].  The log holds integer-valued times, for
    which [start <= t + 0.5] is [start <= t] and [t + 0.5 < end] is
    [t < end]. *)
Fixpoint find_segment (log : list segment) (t : Z) : option string :=
  match log with
  | [] => None
  | (start_time, end_time, tid) :: log' =>
      if (start_time <=? t) && (t <? end_time) then Some tid
      else find_segment log' t
  end.

Definition gantt_cell (log : list segment) (t : Z) : string :=
  let task_id :=
    match find_segment log t with
    | Some tid => ljust 3 tid
    | None => "   "
    end in
  "[" +:+ task_id +:+ "]".

Definition gantt_row (p : Processor) (max_time : Z) : string :=
  fold_left (fun row t => row +:+ gantt_cell (execution_log p) t)
            (range max_time)
            ("CPU " +:+ str_of_int (proc_id p) +:+ ": ").

Definition gantt_header (max_time : Z) : string :=
  fold_left (fun header t => header +:+ ljust 5 (str_of_int t))
            (range (max_time + 1)) "Time: ".

Definition gantt_separator (max_time : Z) : string :=
  "      " +:+ py_repeat "|----" max_time +:+ "|".

Definition print_gantt (processors : list Processor) (max_time : Z) : list string :=
  [newline +:+ py_repeat "=" 50;
   "SIMULATION RESULTS (ASCII Gantt)";
   py_repeat "=" 50 +:+ newline;
   gantt_header max_time;
   gantt_separator max_time]
  ++ map (fun p => gantt_row p max_time) processors
  ++ [newline].

(** Some segment of the log covers slot [t] with task [tid]. *)
Definition covers (log : list segment) (t : Z) (tid : string) : Prop :=
  exists s e, (s, e, tid) ∈ log /\ s <= t < e.


(** ** Accounting of work *)








(** ** Facts about the stable sort *)

Section StableSortFacts.
Context {A : Type} (key : A -> Z).

Lemma insert_by_key_perm x l : insert_by_key key x l ≡ₚ x :: l.
Proof.
  induction l as [|y l IH]; simpl; [done|].
  destruct (key x <=? key y); [done|].
  rewrite IH. apply perm_swap.
Qed.

Lemma sort_by_key_perm l : sort_by_key key l ≡ₚ l.
Proof.
  induction l as [|x l IH]; simpl; [done|].
  by rewrite insert_by_key_perm, IH.
Qed.

Lemma sort_by_key_length l : length (sort_by_key key l) = length l.
Proof. apply Permutation_length, sort_by_key_perm. Qed.

Lemma insert_by_key_sorted x l :
  StronglySorted (key_le key) l -> StronglySorted (key_le key) (insert_by_key key x l).
Proof.
  induction 1 as [|y l Hl IH Hy]; simpl.
  - repeat constructor.
  - destruct (Z.leb_spec (key x) (key y)) as [Hxy|Hxy].
    + constructor; [by constructor|].
      constructor; [done|].
      eapply Forall_impl; [exact Hy|]. unfold key_le. intros z Hz. lia.
    + constructor; [done|].
      rewrite insert_by_key_perm. constructor; [|done].
      unfold key_le. lia.
Qed.

Lemma sort_by_key_sorted l : StronglySorted (key_le key) (sort_by_key key l).
Proof.
  induction l as [|x l IH]; simpl; [constructor|].
  by apply insert_by_key_sorted.
Qed.

Lemma with_key_insert k x l :
  with_key key k (insert_by_key key x l) = with_key key k (x :: l).
Proof.
  unfold with_key. induction l as [|y l IH]; [done|].
  cbn [insert_by_key].
  destruct (Z.leb_spec (key x) (key y)) as [Hxy|Hxy]; [done|].
  cbn [List.filter] in *. rewrite IH.
  destruct (Z.eqb_spec (key x) k), (Z.eqb_spec (key y) k); try done; lia.
Qed.

Lemma sort_by_key_stable l : stable_reordering key l (sort_by_key key l).
Proof.
  intros k. induction l as [|x l IH]; [done|].
  cbn [sort_by_key]. rewrite with_key_insert.
  unfold with_key in *. cbn [List.filter]. by rewrite IH.
Qed.

Lemma with_key_nil_all l : (forall k, with_key key k l = []) -> l = [].
Proof.
  destruct l as [|x l]; [done|].
  intros H. specialize (H (key x)). unfold with_key in H. cbn in H.
  by rewrite Z.eqb_refl in H.
Qed.

Lemma sorted_head_le x l y :
  StronglySorted (key_le key) (x :: l) -> In y (x :: l) -> key x <= key y.
Proof.
  intros Hs [->|Hy]; [lia|].
  apply StronglySorted_inv in Hs as [_ Hall].
  rewrite Forall_forall in Hall. apply Hall. by apply list_elem_of_In.
Qed.

Lemma with_key_head_In k l x r : with_key key k l = x :: r -> In x l /\ key x = k.
Proof.
  intros H. assert (Hin : In x (with_key key k l)) by (rewrite H; by left).
  unfold with_key in Hin. apply filter_In in Hin as [? ?]. split; [done|lia].
Qed.

Lemma with_key_cons_same x l :
  with_key key (key x) (x :: l) = x :: with_key key (key x) l.
Proof. unfold with_key. cbn [List.filter]. by rewrite Z.eqb_refl. Qed.

(** A stable sort has one possible result: two sorted lists that hold the
    same elements of each key in the same order are equal. *)
Lemma stable_sort_unique l1 l2 :
  StronglySorted (key_le key) l1 -> StronglySorted (key_le key) l2 ->
  (forall k, with_key key k l1 = with_key key k l2) -> l1 = l2.
Proof.
  revert l2. induction l1 as [|x l1 IH]; intros l2 H1 H2 Heq.
  - symmetry. apply with_key_nil_all. intros k. by rewrite <- Heq.
  - destruct l2 as [|y l2].
    { apply with_key_nil_all. intros k. by rewrite Heq. }
    assert (Hk : key x = key y).
    { pose proof (Heq (key x)) as Hx. pose proof (Heq (key y)) as Hy.
      rewrite with_key_cons_same in Hx. rewrite (with_key_cons_same y) in Hy.
      symmetry in Hx. apply with_key_head_In in Hx as [Hx _].
      apply with_key_head_In in Hy as [Hy _].
      pose proof (sorted_head_le _ _ _ H2 Hx).
      pose proof (sorted_head_le _ _ _ H1 Hy). lia. }
    assert (Hxy : x = y).
    { specialize (Heq (key x)). unfold with_key in Heq. cbn [List.filter] in Heq.
      rewrite <- Hk, Z.eqb_refl in Heq. congruence. }
    subst y. f_equal.
    apply IH; [by apply StronglySorted_inv in H1 as [? _]
              |by apply StronglySorted_inv in H2 as [? _]|].
    intros k. specialize (Heq k). unfold with_key in *. cbn [List.filter] in Heq.
    destruct (key x =? k); congruence.
Qed.

(** Whatever stable sort Python runs, it returns [sort_by_key]. *)
Corollary stable_sort_is_sort_by_key l l' :
  StronglySorted (key_le key) l' -> stable_reordering key l l' ->
  l' = sort_by_key key l.
Proof.
  intros Hs Hst. apply stable_sort_unique; [done|apply sort_by_key_sorted|].
  intros k. rewrite Hst. symmetry. apply sort_by_key_stable.
Qed.

End StableSortFacts.

(** ** Facts about the error monad and the conversions *)

Lemma bind_Ok_inv {A B : Type} (m : result A) (f : A -> result B) (b : B) :
  (m ≫= f) = Ok b -> exists a, m = Ok a /\ f a = Ok b.
Proof. destruct m as [a|e]; simpl; [eauto|discriminate]. Qed.

Lemma float_int_limit_large : 2 ^ 64 < float_int_limit.
Proof. by vm_compute. Qed.

Lemma max_size_in_range : PY_SSIZE_T_MAX + 1 < float_int_limit.
Proof. by vm_compute. Qed.

Section ConversionFacts.
Context {F : PyFloat}.

Lemma py_float_of_int_in_range n :
  Z.abs n < float_int_limit -> py_float_of_int n = Ok (f_of_int n).
Proof.
  intros H. unfold py_float_of_int.
  by destruct (Z.ltb_spec (Z.abs n) float_int_limit); [|lia].
Qed.

Lemma py_float_of_int_overflow n :
  float_int_limit <= Z.abs n -> py_float_of_int n = Raise OverflowError.
Proof.
  intros H. unfold py_float_of_int.
  by destruct (Z.ltb_spec (Z.abs n) float_int_limit); [lia|].
Qed.

Lemma py_truediv_in_range a b :
  b <> 0 -> Z.abs a < float_int_limit * Z.abs b ->
  py_truediv a b = Ok (f_truediv a b).
Proof.
  intros Hb Ha. unfold py_truediv.
  destruct (Z.eqb_spec b 0); [done|].
  by destruct (Z.leb_spec (float_int_limit * Z.abs b) (Z.abs a)); [lia|].
Qed.

Lemma py_truediv_one n : n <> 0 -> py_truediv 1 n = Ok (f_truediv 1 n).
Proof.
  intros Hn. apply py_truediv_in_range; [done|].
  pose proof float_int_limit_large. change (Z.abs 1) with 1. nia.
Qed.

Lemma utilization_valid t :
  valid_task t -> utilization t = Ok (f_truediv (execution_time t) (period t)).
Proof.
  intros (Hp & He & Hle). apply py_truediv_in_range; [lia|].
  pose proof float_int_limit_large. nia.
Qed.

Lemma utilizations_valid ts :
  Forall valid_task ts ->
  utilizations ts = Ok (map (fun t => f_truediv (execution_time t) (period t)) ts).
Proof.
  induction 1 as [|t ts Ht _ IH]; [done|].
  cbn [utilizations]. rewrite utilization_valid by done. simpl.
  by rewrite IH.
Qed.

Lemma liu_layland_bound_in_range n :
  Z.abs n < float_int_limit -> liu_layland_bound n = Ok (bound_formula n).
Proof.
  intros Hn. unfold liu_layland_bound, bound_formula.
  destruct (Z.eqb_spec n 0) as [->|Hn0]; [done|].
  rewrite py_truediv_one by done. simpl.
  by rewrite py_float_of_int_in_range.
Qed.

Lemma liu_layland_bound_out_of_range n :
  float_int_limit <= Z.abs n -> liu_layland_bound n = Raise OverflowError.
Proof.
  intros Hn. unfold liu_layland_bound.
  pose proof float_int_limit_large.
  destruct (Z.eqb_spec n 0) as [->|Hn0]; [simpl in Hn; lia|].
  rewrite py_truediv_one by done. simpl.
  by rewrite py_float_of_int_overflow.
Qed.

End ConversionFacts.

(** ** The partitioner *)

Section PartitionerFacts.
Context {F : PyFloat}.

Lemma partition_empty :
  partition_tasks_ff_rm [] = Ok [new_processor 0].
Proof. reflexivity. Qed.

Lemma all_assigned_cons p ps :
  all_assigned (p :: ps) = assigned_tasks p ++ all_assigned ps.
Proof. reflexivity. Qed.

Lemma all_assigned_app ps qs :
  all_assigned (ps ++ qs) = all_assigned ps ++ all_assigned qs.
Proof. unfold all_assigned. by rewrite map_app, concat_app. Qed.

Lemma assigned_le_all p ps :
  p ∈ ps -> len (assigned_tasks p) <= len (all_assigned ps).
Proof.
  unfold len. induction 1 as [p ps|p q ps _ IH];
    rewrite all_assigned_cons, length_app; lia.
Qed.

Lemma assigned_sub_all p ps t :
  p ∈ ps -> t ∈ assigned_tasks p -> t ∈ all_assigned ps.
Proof.
  induction 1 as [p ps|p q ps _ IH]; intros Ht;
    rewrite all_assigned_cons, elem_of_app; auto.
Qed.

(** *** The run against the specification's words *)

Lemma fits_admission p t b : fits p t = Ok b -> admission_test p t b.
Proof.
  unfold fits. intros H.
  apply bind_Ok_inv in H as (cu & Hcu & H).
  apply bind_Ok_inv in H as (tu & Htu & H).
  apply bind_Ok_inv in H as (bd & Hbd & H).
  exists cu, tu, bd. repeat split; try done. congruence.
Qed.

Lemma first_fit_assigned t ps ps' :
  first_fit t ps = Ok (Some ps') ->
  exists (i : nat) (p : Processor),
    ps !! i = Some p /\ admission_test p t true /\
    (forall (j : nat) (q : Processor),
        (j < i)%nat -> ps !! j = Some q -> admission_test q t false) /\
    ps' = <[i := add_task p t]> ps.
Proof.
  revert ps'. induction ps as [|p ps IH]; intros ps' H; [discriminate|].
  cbn [first_fit] in H. apply bind_Ok_inv in H as (ok & Hfit & H).
  apply fits_admission in Hfit. destruct ok.
  - injection H as <-. exists 0%nat, p. repeat split; try done. lia.
  - apply bind_Ok_inv in H as (r & Hr & H).
    destruct r as [ps1|]; [|discriminate]. injection H as <-.
    destruct (IH _ Hr) as (i & q & Hq & Hadm & Hbefore & ->).
    exists (S i), q. repeat split; try done.
    intros [|j] q' Hj Hq'; simpl in Hq'.
    + congruence.
    + apply (Hbefore j); [lia|done].
Qed.

Lemma first_fit_rejected t ps :
  first_fit t ps = Ok None ->
  forall q : Processor, q ∈ ps -> admission_test q t false.
Proof.
  induction ps as [|p ps IH]; intros H q Hq; [by apply elem_of_nil in Hq|].
  cbn [first_fit] in H. apply bind_Ok_inv in H as (ok & Hfit & H).
  apply fits_admission in Hfit. destruct ok; [discriminate|].
  apply bind_Ok_inv in H as (r & Hr & H).
  destruct r; [discriminate|].
  apply elem_of_cons in Hq as [->|Hq]; [done|by apply IH].
Qed.

Lemma place_first_fit_spec ps t ps' :
  place ps t = Ok ps' -> first_fit_spec ps t ps'.
Proof.
  unfold place. intros H. apply bind_Ok_inv in H as (r & Hr & H).
  destruct r as [ps1|]; injection H as <-.
  - left. by apply first_fit_assigned.
  - right. split; [by apply first_fit_rejected|done].
Qed.

Lemma place_all_in_order ps ts ps' :
  place_all ps ts = Ok ps' -> placed_in_order ps ts ps'.
Proof.
  revert ps. induction ts as [|t ts IH]; intros ps H.
  - injection H as <-. constructor.
  - cbn [place_all] in H. apply bind_Ok_inv in H as (ps1 & H1 & H).
    econstructor; [by apply place_first_fit_spec|by apply IH].
Qed.

(** *** Coverage *)

Lemma first_fit_spec_assigned ps t ps' :
  first_fit_spec ps t ps' -> all_assigned ps' ≡ₚ t :: all_assigned ps.
Proof.
  intros [(i & p & Hi & _ & _ & ->)|[_ ->]].
  - revert i Hi. induction ps as [|q ps IH]; intros [|i] Hi; try done.
    + injection Hi as ->. cbn [list_insert insert]. rewrite !all_assigned_cons.
      cbn [add_task assigned_tasks].
      rewrite <- app_assoc. cbn [app].
      by rewrite <- Permutation_middle.
    + cbn [list_insert insert]. simpl in Hi.
      rewrite !all_assigned_cons.
      etrans; [apply Permutation_app_head, (IH i Hi)|].
      by rewrite <- Permutation_middle.
  - rewrite all_assigned_app. change (all_assigned [_]) with ([t] ++ []).
    rewrite app_nil_r. symmetry. apply Permutation_cons_append.
Qed.

Lemma placed_in_order_assigned ps ts ps' :
  placed_in_order ps ts ps' -> all_assigned ps' ≡ₚ ts ++ all_assigned ps.
Proof.
  induction 1 as [ps|ps t ps1 ts ps' H1 _ IH]; [done|].
  rewrite IH, (first_fit_spec_assigned _ _ _ H1).
  by rewrite <- Permutation_middle.
Qed.

(** *** No exception on valid tasks *)

Lemma fits_valid p t :
  Forall valid_task (assigned_tasks p) -> valid_task t ->
  len (assigned_tasks p) + 1 < float_int_limit ->
  fits p t =
    Ok (f_le (f_add (f_sum (map (fun t => f_truediv (execution_time t) (period t))
                                (assigned_tasks p)))
                    (f_truediv (execution_time t) (period t)))
             (bound_formula (len (assigned_tasks p) + 1))).
Proof.
  intros Hp Ht Hn. unfold fits, proc_utilization.
  rewrite utilizations_valid by done. simpl.
  rewrite utilization_valid by done. simpl.
  by rewrite liu_layland_bound_in_range by (unfold len in *; lia).
Qed.

Lemma fits_defined p t :
  Forall valid_task (assigned_tasks p) -> valid_task t ->
  len (assigned_tasks p) + 1 < float_int_limit ->
  exists b, fits p t = Ok b.
Proof. intros Hp Ht Hn. rewrite fits_valid by done. eauto. Qed.

Lemma first_fit_defined t ps :
  Forall valid_task (all_assigned ps) -> valid_task t ->
  len (all_assigned ps) + 1 < float_int_limit ->
  exists r, first_fit t ps = Ok r.
Proof.
  induction ps as [|p ps IH]; intros Hps Ht Hn; [by eexists|].
  rewrite all_assigned_cons in Hps, Hn. apply Forall_app in Hps as [Hp Hps].
  unfold len in Hn. rewrite length_app in Hn.
  cbn [first_fit].
  destruct (fits_defined p t) as [b ->]; [done|done|unfold len; lia|].
  simpl. destruct b; [by eexists|].
  destruct IH as [r ->]; [done|done|unfold len; lia|].
  simpl. by eexists.
Qed.

Lemma place_defined ps t :
  Forall valid_task (all_assigned ps) -> valid_task t ->
  len (all_assigned ps) + 1 < float_int_limit ->
  exists ps', place ps t = Ok ps'.
Proof.
  intros Hps Ht Hn. unfold place.
  destruct (first_fit_defined t ps) as [r ->]; [done..|].
  simpl. destruct r; by eexists.
Qed.

Lemma place_all_defined ts ps :
  Forall valid_task (all_assigned ps) -> Forall valid_task ts ->
  len (all_assigned ps) + len ts < float_int_limit ->
  exists ps', place_all ps ts = Ok ps'.
Proof.
  revert ps. induction ts as [|t ts IH]; intros ps Hps Hts Hn; [by eexists|].
  apply Forall_cons in Hts as [Ht Hts].
  unfold len in Hn. cbn [length] in Hn.
  destruct (place_defined ps t) as [ps1 H1]; [done|done|unfold len; lia|].
  cbn [place_all]. rewrite H1. simpl.
  pose proof (first_fit_spec_assigned _ _ _ (place_first_fit_spec _ _ _ H1)) as Hperm.
  apply IH; [by rewrite Hperm; constructor|done|].
  unfold len. rewrite (Permutation_length Hperm). cbn [length]. lia.
Qed.

Lemma partition_defined tasks :
  Forall valid_task tasks -> len tasks <= PY_SSIZE_T_MAX ->
  exists ps, partition_tasks_ff_rm tasks = Ok ps.
Proof.
  intros Hv Hn. unfold partition_tasks_ff_rm.
  apply place_all_defined.
  - constructor.
  - by rewrite sort_by_key_perm.
  - pose proof max_size_in_range. unfold len in *.
    rewrite sort_by_key_length. change (all_assigned [new_processor 0]) with (@nil Task).
    cbn [length]. lia.
Qed.

(** *** A task held once *)

Lemma NoDup_all_assigned_only ps t :
  NoDup (all_assigned ps) -> t ∈ all_assigned ps -> exists i, only_on ps t i.
Proof.
  induction ps as [|p ps IH]; intros Hnd Ht; [by apply elem_of_nil in Ht|].
  rewrite all_assigned_cons in Hnd, Ht.
  apply NoDup_app in Hnd as (Hp & Hdisj & Hps).
  apply elem_of_app in Ht as [Ht|Ht].
  - exists 0%nat. split; [by exists p|].
    intros [|j] q Hq Hin; [done|]. simpl in Hq.
    exfalso. apply (Hdisj t Ht).
    eapply assigned_sub_all; [|done]. by eapply list_elem_of_lookup_2.
  - destruct (IH Hps Ht) as (i & (q & Hq & Hin) & Huniq).
    exists (S i). split; [by exists q|].
    intros [|j] q' Hq' Hin'.
    + injection Hq' as <-. exfalso. by apply (Hdisj t Hin').
    + f_equal. by apply (Huniq j q').
Qed.

End PartitionerFacts.

(** The processors of a partition enter the simulation idle, with an
    empty ready queue and an empty log. *)
Section PartitionFresh.
Context {F : PyFloat}.





End PartitionFresh.

(** ** The tolerance tests on integer-valued times *)

Lemma le_eps_spec x : le_eps x = true <-> x <= 0.
Proof. unfold le_eps. apply Z.leb_le. Qed.


(** ** The execution log *)






(** ** The next event *)












(** The [break] is never taken: under the guard of the loop the cap
    leaves an event time. *)
Lemma cap_event_guard max_time now e :
  now < max_time -> is_Some (cap_event max_time now e).
Proof.
  intros H. unfold cap_event.
  destruct (Z.eqb_spec max_time now); [lia|].
  destruct e as [t|]; [|done]. by destruct (max_time <? t).
Qed.

(** ** One turn of the loop, processor by processor *)




Lemma map_if {A : Type} (b : bool) (f : A -> A) (l : list A) :
  (if b then map f l else l) = map (fun x => if b then f x else x) l.
Proof. destruct b; [done|]. by rewrite map_id. Qed.








(** Step C.2 over the processors: each is handled with some state of the
    counters. *)
Lemma arrivals_all_spec now cs m cs' m' :
  arrivals_all now cs m = (cs', m') ->
  Forall2 (fun c c' =>
             exists mc d q mq,
               handle_arrivals now (next_arrivals c) mc (ready_queue (proc c))
                 = (d, mq, q) /\
               c' = mkCore (set_queue (proc c) q) d) cs cs'.
Proof.
  revert m cs' m'. induction cs as [|c cs IH]; intros m cs' m' H.
  - injection H as <- <-. constructor.
  - cbn [arrivals_all] in H.
    destruct (handle_arrivals now _ m _) as [[d m1] q] eqn:Hc.
    destruct (arrivals_all now cs m1) as [cs1 m2] eqn:Hcs.
    injection H as <- <-. constructor; [|by eapply IH].
    by exists m, d, q, m1.
Qed.


(** ** The dispatcher *)

Lemma preempt_jobs p : jobs_of (preempt p) ≡ₚ jobs_of p.
Proof.
  unfold preempt, jobs_of, running.
  destruct (active_job p) as [a|] eqn:Ha; [|by rewrite Ha].
  destruct (existsb _ _); [|by rewrite Ha].
  cbn. by rewrite <- Permutation_cons_append.
Qed.

Lemma sort_ready_queue_jobs p : jobs_of (sort_ready_queue p) ≡ₚ jobs_of p.
Proof.
  unfold sort_ready_queue, jobs_of, running. cbn.
  by rewrite sort_by_key_perm.
Qed.

Lemma select_jobs p : jobs_of (select p) = jobs_of p.
Proof.
  unfold select, jobs_of, running.
  destruct (active_job p) as [a|] eqn:Ha; [by rewrite Ha|].
  destruct (ready_queue p) as [|j q] eqn:Hq; [by rewrite Ha, Hq|done].
Qed.

Lemma dispatch_jobs p : jobs_of (dispatch p) ≡ₚ jobs_of p.
Proof.
  unfold dispatch.
  by rewrite select_jobs, sort_ready_queue_jobs, preempt_jobs.
Qed.

Lemma preempt_log p : execution_log (preempt p) = execution_log p.
Proof.
  unfold preempt. destruct (active_job p); [|done]. by destruct (existsb _ _).
Qed.

Lemma select_log p : execution_log (select p) = execution_log p.
Proof.
  unfold select. destruct (active_job p); [done|]. by destruct (ready_queue p).
Qed.

Lemma dispatch_log p : execution_log (dispatch p) = execution_log p.
Proof.
  unfold dispatch. rewrite select_log.
  change (execution_log (sort_ready_queue (preempt p)))
    with (execution_log (preempt p)).
  apply preempt_log.
Qed.


(** After the preemption check the incumbent, if still in place, has a
    period no longer than any ready job. *)
Lemma preempt_incumbent_least p a j :
  active_job (preempt p) = Some a -> j ∈ ready_queue (preempt p) ->
  job_period a <= job_period j.
Proof.
  unfold preempt. destruct (active_job p) as [a0|] eqn:Ha; [|by rewrite Ha].
  destruct (existsb _ _) eqn:Hex; [done|].
  rewrite Ha. intros [= ->] Hj.
  destruct (Z.leb_spec (job_period a) (job_period j)) as [|Hlt]; [done|].
  assert (existsb (fun j => period (task j) <? period (task a)) (ready_queue p) = true);
    [|congruence].
  apply existsb_exists. exists j. split; [by apply list_elem_of_In|].
  by apply Z.ltb_lt.
Qed.

Lemma dispatch_active_least p a j :
  active_job (dispatch p) = Some a -> j ∈ ready_queue (dispatch p) ->
  job_period a <= job_period j.
Proof.
  unfold dispatch, select.
  destruct (active_job (sort_ready_queue (preempt p))) as [a0|] eqn:Ha.
  - rewrite Ha. intros [= ->] Hj. cbn in Ha, Hj.
    rewrite sort_by_key_perm in Hj. by eapply preempt_incumbent_least.
  - destruct (ready_queue (sort_ready_queue (preempt p))) as [|j0 q] eqn:Hq.
    { by rewrite Ha. }
    cbn [active_job ready_queue]. intros [= ->] Hj.
    pose proof (sort_by_key_sorted job_period (ready_queue (preempt p))) as Hs.
    cbn in Hq. rewrite Hq in Hs.
    apply (sorted_head_le job_period a q); [done|].
    right. by apply list_elem_of_In.
Qed.

Lemma dispatch_idle_empty p :
  active_job (dispatch p) = None -> ready_queue (dispatch p) = [].
Proof.
  unfold dispatch, select.
  destruct (active_job (sort_ready_queue (preempt p))) as [a0|] eqn:Ha.
  { by rewrite Ha. }
  destruct (ready_queue (sort_ready_queue (preempt p))) as [|j q] eqn:Hq.
  - by rewrite Hq.
  - by cbn.
Qed.

(** Ties favour the incumbent: with no ready job of strictly smaller
    period the active job stays, and the ready queue is only sorted. *)
Lemma dispatch_keeps_incumbent p a :
  active_job p = Some a ->
  (forall j, j ∈ ready_queue p -> job_period a <= job_period j) ->
  active_job (dispatch p) = Some a /\
  ready_queue (dispatch p) = sort_by_key job_period (ready_queue p).
Proof.
  intros Ha Hall.
  assert (Hp : preempt p = p).
  { unfold preempt. rewrite Ha.
    destruct (existsb _ _) eqn:Hex; [|done].
    apply existsb_exists in Hex as (j & Hj & Hlt).
    apply list_elem_of_In, Hall in Hj. unfold job_period in Hj.
    apply Z.ltb_lt in Hlt. lia. }
  unfold dispatch, select. rewrite Hp. cbn. by rewrite Ha.
Qed.

(** Zero delay: a ready job of strictly smaller period displaces the
    incumbent within the step, and a job of strictly smaller period runs. *)
Lemma dispatch_preempts p a j :
  active_job p = Some a -> j ∈ ready_queue p -> job_period j < job_period a ->
  exists b, active_job (dispatch p) = Some b /\ job_period b < job_period a /\
            a ∈ ready_queue (dispatch p).
Proof.
  intros Ha Hj Hlt.
  assert (Hp : preempt p =
               mkProcessor (proc_id p) (assigned_tasks p) None
                           (ready_queue p ++ [a]) (execution_log p)).
  { unfold preempt. rewrite Ha.
    destruct (existsb _ _) eqn:Hex; [done|].
    assert (existsb (fun j => period (task j) <? period (task a)) (ready_queue p) = true);
      [|congruence].
    apply existsb_exists. exists j. split; [by apply list_elem_of_In|].
    by apply Z.ltb_lt. }
  unfold dispatch, select. rewrite Hp. cbn [sort_ready_queue active_job ready_queue
    proc_id assigned_tasks execution_log].
  pose proof (sort_by_key_sorted job_period (ready_queue p ++ [a])) as Hs.
  pose proof (sort_by_key_perm job_period (ready_queue p ++ [a])) as Hperm.
  destruct (sort_by_key job_period (ready_queue p ++ [a])) as [|b q] eqn:Hq.
  { apply Permutation_nil_l in Hperm. by destruct (ready_queue p). }
  exists b. cbn [active_job ready_queue]. split; [done|].
  assert (Hbj : job_period b <= job_period j).
  { apply (sorted_head_le job_period b q); [done|].
    apply list_elem_of_In. rewrite Hperm. apply elem_of_app. by left. }
  split; [lia|].
  assert (Hin : a ∈ b :: q) by (rewrite Hperm; apply elem_of_app; right; by left).
  apply elem_of_cons in Hin as [->|Hin]; [lia|done].
Qed.

(** ** One turn of the loop *)

Lemma loop_body_Continue max_time s s' :
  loop_body max_time s = Continue s' ->
  exists sb, before_dispatch max_time s = Some sb /\
             s' = mkSim (map (on_proc dispatch) (cores sb)) (job_counters sb)
                        (current_time sb).
Proof.
  unfold loop_body. destruct (before_dispatch max_time s) as [sb|]; [|done].
  intros [= <-]. by exists sb.
Qed.

Lemma before_dispatch_Some max_time s sb :
  before_dispatch max_time s = Some sb ->
  let now := current_time s in
  exists next,
    cap_event max_time now
      (min_etime (next_arrival (cores s)) (next_completion now (cores s)))
      = Some next /\
    current_time sb = next /\
    arrivals_all next
      (map (fun c => on_proc complete
                       (if 0 <? next - now then on_proc (advance now next) c
                        else c)) (cores s))
      (job_counters s) = (cores sb, job_counters sb).
Proof.
  unfold before_dispatch. cbn zeta.
  destruct (cap_event _ _ _) as [next|] eqn:Hcap; [|done].
  rewrite map_if, map_map.
  destruct (arrivals_all _ _ _) as [cs3 m] eqn:Harr.
  intros [= <-]. exists next. by cbn.
Qed.



(** Under the guard of the loop the body does not leave by [break]. *)
Lemma loop_body_continues max_time s :
  current_time s < max_time -> exists s', loop_body max_time s = Continue s'.
Proof.
  intros Hguard. unfold loop_body, before_dispatch. cbn zeta.
  destruct (cap_event_guard max_time (current_time s)
              (min_etime (next_arrival (cores s))
                 (next_completion (current_time s) (cores s))) Hguard)
    as [next ->].
  destruct (arrivals_all _ _ _). by eexists.
Qed.

(** ** The run *)


Lemma sim_loop_reachable fuel max_time s0 s s' :
  reachable max_time s0 s -> sim_loop fuel max_time s = Some s' ->
  reachable max_time s0 s'.
Proof.
  revert s. induction fuel as [|fuel IH]; intros s Hs H; cbn [sim_loop] in H.
  - destruct (current_time s <? max_time); [done|]. by injection H as <-.
  - destruct (Z.ltb_spec (current_time s) max_time) as [Hguard|_];
      [|by injection H as <-].
    destruct (loop_body max_time s) as [|s1] eqn:Hstep; [by injection H as <-|].
    apply (IH s1); [|done]. by apply reach_step with s.
Qed.

Lemma run_turns_reachable n max_time s0 s s' :
  reachable max_time s0 s -> run_turns n max_time s = Some s' ->
  reachable max_time s0 s'.
Proof.
  revert s. induction n as [|n IH]; intros s Hs H; cbn [run_turns] in H.
  - by injection H as <-.
  - destruct (Z.ltb_spec (current_time s) max_time) as [Hguard|_]; [|done].
    destruct (loop_body max_time s) as [|s1] eqn:Hstep; [done|].
    apply (IH s1); [|done]. by apply reach_step with s.
Qed.



(** *** The state on entry *)

Lemma dict_set_entries d k v e :
  e ∈ dict_set d k v -> e ∈ d \/ e = (k, v).
Proof.
  induction d as [|[k' v'] d IH]; cbn [dict_set].
  - intros He. apply list_elem_of_singleton in He. by right.
  - destruct (decide (k' = k)) as [->|Hne]; intros He;
      apply elem_of_cons in He as [->|He].
    + by right.
    + left. by right.
    + left. by left.
    + destruct (IH He) as [?|?]; [left; by right|by right].
Qed.

Lemma arrivals_at_zero_entries tasks e :
  e ∈ arrivals_at_zero tasks -> fst e ∈ tasks /\ snd e = 0.
Proof.
  unfold arrivals_at_zero.
  assert (Hgen : forall d,
             (forall e, e ∈ d -> fst e ∈ tasks /\ snd e = 0) ->
             forall ts, (forall t, t ∈ ts -> t ∈ tasks) ->
             e ∈ fold_left (fun d t => dict_set d t 0) ts d ->
             fst e ∈ tasks /\ snd e = 0).
  { intros d Hd ts. revert d Hd. induction ts as [|t ts IH]; intros d Hd Hts He.
    - by apply Hd.
    - cbn [fold_left] in He. apply IH in He; [done| |].
      + intros e' He'. apply dict_set_entries in He' as [He' | ->]; [by apply Hd|].
        split; [|done]. apply Hts. by left.
      + intros t' Ht'. apply Hts. by right. }
  apply Hgen; [|done]. intros e' He'. by apply elem_of_nil in He'.
Qed.


Lemma run_simulation_Some fuel processors max_time ps :
  run_simulation fuel processors max_time = Some ps ->
  exists s, reachable max_time (initial_state processors) s /\
            ps = map proc (cores s).
Proof.
  unfold run_simulation.
  destruct (sim_loop _ _ _) as [s|] eqn:Hs; [|done].
  intros [= <-]. exists s. split; [|done].
  eapply sim_loop_reachable; [constructor|done].
Qed.

(** ** The job counters

    [job_counters[task.id]] is read for tasks of the arrival tables
    only, and each of them has had an entry since the start: the lookup
    never misses. *)

Lemma initial_counters_cover ts (m : gmap string Z) k :
  is_Some (m !! k) \/ (exists t, t ∈ ts /\ id t = k) ->
  is_Some (fold_left (fun m t => <[id t := 1]> m) ts m !! k).
Proof.
  revert m. induction ts as [|t ts IH]; intros m H; cbn [fold_left].
  - destruct H as [H|(t & Ht & _)]; [done|by apply elem_of_nil in Ht].
  - apply IH. destruct H as [H|(t' & Ht' & Hk)].
    + left. destruct (decide (id t = k)) as [->|Hne].
      * rewrite lookup_insert_eq. by eexists.
      * by rewrite lookup_insert_ne.
    + apply elem_of_cons in Ht' as [->|Ht'].
      * left. rewrite Hk, lookup_insert_eq. by eexists.
      * right. by exists t'.
Qed.

Lemma counters_cover_initial processors :
  counters_cover (initial_state processors).
Proof.
  intros c e Hc He. cbn [initial_state cores job_counters] in *.
  apply list_elem_of_fmap in Hc as (p & -> & Hp). cbn [next_arrivals] in He.
  apply arrivals_at_zero_entries in He as [He _].
  apply initial_counters_cover. right. exists (fst e). split; [|done].
  by apply assigned_sub_all with p.
Qed.

Lemma handle_arrivals_keys now d m q d' m' q' :
  handle_arrivals now d m q = (d', m', q') ->
  map fst d' = map fst d /\
  forall k, is_Some (m !! k) -> is_Some (m' !! k).
Proof.
  revert m q d' m' q'. induction d as [|[tk arrival] d IH];
    intros m q d' m' q' H.
  { by injection H as <- <- <-. }
  cbn [handle_arrivals] in H. destruct (abs_lt_eps _).
  - destruct (handle_arrivals now d _ _) as [[d1 m1] q1] eqn:Hrec.
    injection H as <- <- <-. destruct (IH _ _ _ _ _ Hrec) as [Hk Hm].
    split; [cbn; by rewrite Hk|].
    intros k Hsome. apply Hm.
    destruct (decide (id tk = k)) as [->|Hne].
    + rewrite lookup_insert_eq. by eexists.
    + by rewrite lookup_insert_ne.
  - destruct (handle_arrivals now d _ _) as [[d1 m1] q1] eqn:Hrec.
    injection H as <- <- <-. destruct (IH _ _ _ _ _ Hrec) as [Hk Hm].
    split; [cbn; by rewrite Hk|done].
Qed.

Lemma arrivals_all_keys now cs m cs' m' :
  arrivals_all now cs m = (cs', m') ->
  (forall c', c' ∈ cs' ->
     exists c, c ∈ cs /\ map fst (next_arrivals c') = map fst (next_arrivals c)) /\
  forall k, is_Some (m !! k) -> is_Some (m' !! k).
Proof.
  revert m cs' m'. induction cs as [|c cs IH]; intros m cs' m' H.
  { injection H as <- <-. split; [|done]. intros c' Hc'. by apply elem_of_nil in Hc'. }
  cbn [arrivals_all] in H.
  destruct (handle_arrivals now _ m _) as [[d m1] q] eqn:Hc.
  destruct (arrivals_all now cs m1) as [cs1 m2] eqn:Hcs.
  injection H as <- <-.
  apply handle_arrivals_keys in Hc as [Hk Hm].
  destruct (IH _ _ _ Hcs) as [Hcs1 Hm1].
  split; [|by auto].
  intros c' Hc'. apply elem_of_cons in Hc' as [->|Hc'].
  - exists c. split; [by left|done].
  - destruct (Hcs1 c' Hc') as (c0 & Hc0 & Heq). exists c0. split; [by right|done].
Qed.

Lemma counters_cover_preserved max_time s s' :
  counters_cover s -> loop_body max_time s = Continue s' -> counters_cover s'.
Proof.
  intros Hcover Hstep.
  apply loop_body_Continue in Hstep as (sb & Hsb & ->).
  apply before_dispatch_Some in Hsb as (next & _ & _ & Harr).
  cbn zeta in Harr. apply arrivals_all_keys in Harr as [Hkeys Hm].
  intros c' e Hc' He. cbn [cores job_counters] in *.
  apply list_elem_of_fmap in Hc' as (c3 & -> & Hc3). cbn [on_proc next_arrivals] in He.
  destruct (Hkeys c3 Hc3) as (c2 & Hc2 & Heq).
  apply list_elem_of_fmap in Hc2 as (c & -> & Hc).
  assert (Hin : fst e ∈ map fst (next_arrivals c3))
    by (apply list_elem_of_fmap; by exists e).
  rewrite Heq in Hin.
  replace (next_arrivals (on_proc complete
             (if 0 <? next - current_time s
              then on_proc (advance (current_time s) next) c else c)))
    with (next_arrivals c) in Hin by (by destruct (0 <? _)).
  apply list_elem_of_fmap in Hin as (e0 & He0 & Hin).
  apply Hm. rewrite He0. by apply (Hcover c).
Qed.

Lemma reachable_counters_cover max_time processors s :
  reachable max_time (initial_state processors) s -> counters_cover s.
Proof.
  induction 1 as [|s s' _ IH _ Hstep]; [apply counters_cover_initial|].
  by apply counters_cover_preserved with max_time s.
Qed.

(** ** The scenarios, run *)

(** One task of period 10 and execution time 3 over a horizon of 30:
    three segments of length 3, at 0, 10 and 20. *)
Example single_task_log :
  option_map (map execution_log) (run_simulation 40 [cpu_S] 30)
  = Some [[(0, 3, "S"); (10, 13, "S"); (20, 23, "S")]].
Proof. by vm_compute. Qed.

(** Scenario 1 of [main.py]: T1 and T3 fill the processor, T2 never runs. *)
Example scenario_1_log :
  option_map (map execution_log) (run_simulation 100 [cpu0] 20)
  = Some [[(0, 1, "T1"); (1, 2, "T3"); (2, 3, "T1"); (3, 4, "T3");
           (4, 5, "T1"); (5, 6, "T3"); (6, 7, "T1"); (7, 8, "T3");
           (8, 9, "T1"); (9, 10, "T3"); (10, 11, "T1"); (11, 12, "T3");
           (12, 13, "T1"); (13, 14, "T3"); (14, 15, "T1"); (15, 16, "T3");
           (16, 17, "T1"); (17, 18, "T3"); (18, 19, "T1"); (19, 20, "T3")]].
Proof. by vm_compute. Qed.

(** The fuel of the termination bound is enough there. *)
Example scenario_1_fuel :
  is_Some (run_simulation 21 [cpu0] 20).
Proof. vm_compute. by eexists. Qed.

(** *** The partition of [test_ffrm.py] in exact arithmetic *)

Lemma sqrt_2_lt : (sqrt 2 < 3 / 2)%R.
Proof.
  replace (3 / 2)%R with (sqrt (9 / 4)).
  - apply sqrt_lt_1; lra.
  - replace (9 / 4)%R with ((3 / 2) * (3 / 2))%R by lra.
    apply sqrt_square. lra.
Qed.

Lemma ideal_bound_1 : bound_formula (F := ideal_float) 1 = 1%R.
Proof.
  unfold bound_formula. cbn.
  replace (1 / 1)%R with 1%R by lra. rewrite Rpower_1 by lra. lra.
Qed.

Lemma ideal_bound_2 : (bound_formula (F := ideal_float) 2 < 1)%R.
Proof.
  unfold bound_formula. cbn.
  replace (1 / 2)%R with (/ 2)%R by lra. rewrite Rpower_sqrt by lra.
  pose proof sqrt_2_lt. lra.
Qed.

Lemma ideal_le_true (x y : R) : (x <= y)%R -> f_le (PyFloat := ideal_float) x y = true.
Proof. intros H. cbn. by destruct (Rle_dec x y). Qed.

Lemma ideal_le_false (x y : R) : (y < x)%R -> f_le (PyFloat := ideal_float) x y = false.
Proof. intros H. cbn. destruct (Rle_dec x y); [lra|done]. Qed.

Lemma valid_F1 : valid_task F1. Proof. unfold valid_task; cbn; lia. Qed.
Lemma valid_F2 : valid_task F2. Proof. unfold valid_task; cbn; lia. Qed.
Lemma valid_F3 : valid_task F3. Proof. unfold valid_task; cbn; lia. Qed.

(** T1 fills processor 0 to one half; T2 would bring it to 1, above the
    bound for two tasks, and opens processor 1; T3 fits neither and
    opens processor 2. *)
Example test_ffrm_partition :
  partition_tasks_ff_rm (F := ideal_float) [F1; F2; F3]
  = Ok [mkProcessor 0 [F1] None [] [];
        mkProcessor 1 [F2] None [] [];
        mkProcessor 2 [F3] None [] []].
Proof.
  pose proof ideal_bound_2 as Hb2. pose proof float_int_limit_large as Hlim.
  assert (Hfit0 : fits (F := ideal_float) (new_processor 0) F1 = Ok true).
  { rewrite fits_valid; [|cbn; constructor|apply valid_F1|unfold len; cbn; lia].
    f_equal. apply ideal_le_true.
    change (len (assigned_tasks (new_processor 0)) + 1) with 1.
    rewrite ideal_bound_1. cbn. lra. }
  assert (Hno : forall pid (t u : Task),
             valid_task t -> valid_task u ->
             (1 <= IZR (execution_time t) / IZR (period t) + 0
                   + IZR (execution_time u) / IZR (period u))%R ->
             fits (F := ideal_float) (mkProcessor pid [t] None [] []) u = Ok false).
  { intros pid t u Ht Hu Hsum.
    rewrite fits_valid; [|cbn; constructor; [done|constructor]|done|unfold len; cbn; lia].
    f_equal. apply ideal_le_false.
    change (len (assigned_tasks (mkProcessor pid [t] None [] [])) + 1) with 2.
    cbn [assigned_tasks map f_sum f_add ideal_float fold_right f_truediv].
    lra. }
  assert (H1 : place (F := ideal_float) [new_processor 0] F1
               = Ok [mkProcessor 0 [F1] None [] []]).
  { unfold place. cbn [first_fit]. by rewrite Hfit0. }
  assert (H2 : place (F := ideal_float) [mkProcessor 0 [F1] None [] []] F2
               = Ok [mkProcessor 0 [F1] None [] []; mkProcessor 1 [F2] None [] []]).
  { unfold place. cbn [first_fit].
    by rewrite (Hno 0 F1 F2 valid_F1 valid_F2) by (cbn; lra). }
  assert (H3 : place (F := ideal_float)
                 [mkProcessor 0 [F1] None [] []; mkProcessor 1 [F2] None [] []] F3
               = Ok [mkProcessor 0 [F1] None [] []; mkProcessor 1 [F2] None [] [];
                     mkProcessor 2 [F3] None [] []]).
  { unfold place. cbn [first_fit].
    rewrite (Hno 0 F1 F3 valid_F1 valid_F3) by (cbn; lra). cbn [mbind result_bind].
    by rewrite (Hno 1 F2 F3 valid_F2 valid_F3) by (cbn; lra). }
  unfold partition_tasks_ff_rm.
  change (sort_by_key period [F1; F2; F3]) with [F1; F2; F3].
  cbn [place_all]. rewrite H1. cbn [mbind result_bind].
  rewrite H2. cbn [mbind result_bind]. by rewrite H3.
Qed.

(** ** Properties of the partitioner *)

(** C1, as the code has it: partitioning the empty task list returns one
    processor, numbered 0, that holds no task, no job and an empty log
    (the list of processors starts as [[Processor(0)]] and the loop over
    the tasks does not run). *)
Theorem partition_empty_one_processor {F : PyFloat} :
  partition_tasks_ff_rm [] = Ok [mkProcessor 0 [] None [] []].
Proof. apply partition_empty. Qed.

(** C1 as stated fails: the empty task list does not yield the empty
    list of processors. *)
Lemma partition_empty_not_zero_processors :
  partition_tasks_ff_rm (F := ideal_float) [] <> Ok [].
Proof. rewrite partition_empty. discriminate. Qed.

(** C6: on valid tasks the partitioner returns, and the tasks of the
    processors it returns are the input tasks, each as often as the
    input holds it: none is dropped, none is added.  When the input
    holds no task twice, every input task is on one processor and on no
    other, so that the processors hold pairwise disjoint sets. *)
Theorem partition_coverage {F : PyFloat} (tasks : list Task) :
  Forall valid_task tasks ->
  len tasks <= PY_SSIZE_T_MAX ->
  exists ps,
    partition_tasks_ff_rm tasks = Ok ps /\
    all_assigned ps ≡ₚ tasks /\
    (NoDup tasks ->
     NoDup (all_assigned ps) /\
     forall t, t ∈ tasks -> exists i, only_on ps t i).
Proof.
  intros Hv Hn. destruct (partition_defined tasks Hv Hn) as [ps Hps].
  exists ps. split; [done|].
  assert (Hperm : all_assigned ps ≡ₚ tasks).
  { unfold partition_tasks_ff_rm in Hps.
    apply place_all_in_order, placed_in_order_assigned in Hps.
    rewrite Hps. change (all_assigned [new_processor 0]) with (@nil Task).
    by rewrite app_nil_r, sort_by_key_perm. }
  split; [done|]. intros Hnd.
  assert (NoDup (all_assigned ps)) by by rewrite Hperm.
  split; [done|]. intros t Ht.
  apply NoDup_all_assigned_only; [done|by rewrite Hperm].
Qed.

Lemma partition_coverage_witness :
  exists ps,
    partition_tasks_ff_rm (F := ideal_float) [T1; T2; T3] = Ok ps /\
    all_assigned ps ≡ₚ [T1; T2; T3] /\
    (NoDup [T1; T2; T3] ->
     NoDup (all_assigned ps) /\
     forall t, t ∈ [T1; T2; T3] -> exists i, only_on ps t i).
Proof.
  apply (partition_coverage (F := ideal_float) [T1; T2; T3]).
  - repeat (constructor; [unfold valid_task; simpl; lia|]). constructor.
  - by vm_compute.
Defined.

(** C7: the tasks are taken in ascending order of period, equal periods
    in input order, and each goes to the first processor, in creation
    order, for which utilization before insertion plus the task's
    utilization is at most [liu_layland_bound] of the task count after
    insertion; when no processor passes, a processor numbered by the
    current processor count is appended with the task alone. *)
Theorem partition_first_fit {F : PyFloat} (tasks : list Task) :
  Forall valid_task tasks ->
  len tasks <= PY_SSIZE_T_MAX ->
  exists order ps,
    order ≡ₚ tasks /\
    StronglySorted (key_le period) order /\
    stable_reordering period tasks order /\
    partition_tasks_ff_rm tasks = Ok ps /\
    placed_in_order [mkProcessor 0 [] None [] []] order ps.
Proof.
  intros Hv Hn. destruct (partition_defined tasks Hv Hn) as [ps Hps].
  exists (sort_by_key period tasks), ps.
  split; [apply sort_by_key_perm|].
  split; [apply sort_by_key_sorted|].
  split; [apply sort_by_key_stable|].
  split; [done|]. by apply place_all_in_order.
Qed.

Lemma partition_first_fit_witness :
  exists order ps,
    order ≡ₚ [T1; T2; T3] /\
    StronglySorted (key_le period) order /\
    stable_reordering period [T1; T2; T3] order /\
    partition_tasks_ff_rm (F := ideal_float) [T1; T2; T3] = Ok ps /\
    placed_in_order (F := ideal_float) [mkProcessor 0 [] None [] []] order ps.
Proof.
  apply (partition_first_fit (F := ideal_float) [T1; T2; T3]).
  - repeat (constructor; [unfold valid_task; simpl; lia|]). constructor.
  - by vm_compute.
Defined.

(** C8, as the code has it: for an integer [n] from 0 up to the largest
    one that converts to a binary64, [liu_layland_bound n] raises
    nothing and returns [1.0] when [n = 0] and
    [n * (pow(2, 1/n) - 1)] otherwise. *)
Theorem liu_layland_bound_formula {F : PyFloat} (n : Z) :
  0 <= n -> n < float_int_limit ->
  liu_layland_bound n =
    Ok (if n =? 0 then f_of_int 1
        else f_mul (f_of_int n)
                   (f_sub (f_pow (f_of_int 2) (f_truediv 1 n)) (f_of_int 1))).
Proof. intros H0 Hn. apply liu_layland_bound_in_range. lia. Qed.

Lemma liu_layland_bound_formula_witness :
  liu_layland_bound (F := ideal_float) 3 =
    Ok (3 * (Rpower 2 (1 / 3) - 1))%R.
Proof.
  apply (liu_layland_bound_formula (F := ideal_float) 3); [lia|by vm_compute].
Defined.

(** C8 as stated fails: at the non-negative integer 2^1024 the product
    [n * (...)] cannot convert [n] and [OverflowError] is raised. *)
Lemma liu_layland_bound_overflows :
  0 <= 2 ^ 1024 /\
  liu_layland_bound (F := ideal_float) (2 ^ 1024) = Raise OverflowError.
Proof.
  split; [by vm_compute|].
  apply liu_layland_bound_out_of_range. by vm_compute.
Qed.

(** ** Properties of the simulation *)

(** C2: after any turn of the loop of [run_simulation], whatever the
    state it started from, every processor runs at most one job, and no
    job of its ready queue has a strictly smaller period than the job it
    runs.  In the dispatch of that turn an incumbent whose period is no
    longer than that of any ready job (ties included) stays in place,
    and an incumbent faced with a ready job of strictly smaller period
    gives way, within the turn, to a job of strictly smaller period. *)
Theorem zero_delay_preemption (max_time : Z) (s s' : SimState) :
  loop_body max_time s = Continue s' ->
  exists sb,
    before_dispatch max_time s = Some sb /\
    Forall2
      (fun cb c' =>
         let pb := proc cb in
         let p' := proc c' in
         (length (running p') <= 1)%nat /\
         (forall a j, active_job p' = Some a -> j ∈ ready_queue p' ->
                      job_period a <= job_period j) /\
         (forall a, active_job pb = Some a ->
                    (forall j, j ∈ ready_queue pb -> job_period a <= job_period j) ->
                    active_job p' = Some a) /\
         (forall a j, active_job pb = Some a -> j ∈ ready_queue pb ->
                      job_period j < job_period a ->
                      exists b, active_job p' = Some b /\
                                job_period b < job_period a))
      (cores sb) (cores s').
Proof.
  intros H. apply loop_body_Continue in H as (sb & Hsb & ->).
  exists sb. split; [done|]. cbn [cores].
  apply Forall2_fmap_r, Forall_Forall2_diag, Forall_forall.
  intros c _. cbn [on_proc proc]. repeat split.
  - unfold running. destruct (active_job _); cbn; lia.
  - intros a j. apply dispatch_active_least.
  - intros a Ha Hall. by apply dispatch_keeps_incumbent.
  - intros a j Ha Hj Hlt.
    destruct (dispatch_preempts _ _ _ Ha Hj Hlt) as (b & ? & ? & _). eauto.
Qed.

Lemma zero_delay_preemption_witness :
  exists s' sb,
    loop_body 20 (initial_state [cpu0]) = Continue s' /\
    before_dispatch 20 (initial_state [cpu0]) = Some sb /\
    Forall2
      (fun cb c' =>
         let pb := proc cb in
         let p' := proc c' in
         (length (running p') <= 1)%nat /\
         (forall a j, active_job p' = Some a -> j ∈ ready_queue p' ->
                      job_period a <= job_period j) /\
         (forall a, active_job pb = Some a ->
                    (forall j, j ∈ ready_queue pb -> job_period a <= job_period j) ->
                    active_job p' = Some a) /\
         (forall a j, active_job pb = Some a -> j ∈ ready_queue pb ->
                      job_period j < job_period a ->
                      exists b, active_job p' = Some b /\
                                job_period b < job_period a))
      (cores sb) (cores s').
Proof.
  destruct (loop_body 20 (initial_state [cpu0])) as [|s'] eqn:Hstep.
  { vm_compute in Hstep. discriminate. }
  destruct (zero_delay_preemption 20 (initial_state [cpu0]) s' Hstep)
    as (sb & Hsb & Hall).
  by exists s', sb.
Defined.






(** C5, as the code has it: whatever the state of the processor, hence
    in every reachable state, the reorder of the dispatch step leaves
    the ready queue sorted in ascending order of task period, and jobs
    of equal period keep the order in which they stood in the queue
    before the sort.  That order is the order of insertion: the queue
    before the sort is the queue of the turn, followed by the incumbent
    when the preemption check has just demoted it, so a demoted job
    stands behind the ready jobs of its period, whenever they arrived. *)
Theorem ready_queue_sorted_stable (p : Processor) :
  let before := ready_queue (preempt p) in
  let after := ready_queue (sort_ready_queue (preempt p)) in
  (before = ready_queue p \/
   exists a, active_job p = Some a /\ before = ready_queue p ++ [a]) /\
  after ≡ₚ before /\
  StronglySorted (key_le job_period) after /\
  stable_reordering job_period before after.
Proof.
  cbn zeta. split; [|split; [|split]].
  - unfold preempt. destruct (active_job p) as [a|]; [|by left].
    destruct (existsb _ _); [|by left]. right. by exists a.
  - apply sort_by_key_perm.
  - apply sort_by_key_sorted.
  - apply sort_by_key_stable.
Qed.

(** C5 as stated fails: with H (period 2, execution 1) and A (period 4,
    execution 3) on one processor, the turn that handles time 4 demotes
    the job of A that arrived at 0 behind the job of A that arrives at
    4; after the reorder the later arrival stands first. *)
Lemma ready_queue_not_arrival_ordered :
  exists s sb c,
    reachable 8 (initial_state [cpu_HA]) s /\
    before_dispatch 8 s = Some sb /\ c ∈ cores sb /\
    map (fun j => (id (task j), job_period j, arrival_time j))
        (ready_queue (sort_ready_queue (preempt (proc c))))
      = [("H", 2, 4); ("A", 4, 4); ("A", 4, 0)] /\
    ~ arrival_ordered (ready_queue (sort_ready_queue (preempt (proc c)))).
Proof.
  destruct (run_turns 4 8 (initial_state [cpu_HA])) as [s|] eqn:Hs;
    [|vm_compute in Hs; discriminate].
  assert (Hreach : reachable 8 (initial_state [cpu_HA]) s)
    by (eapply run_turns_reachable; [constructor|exact Hs]).
  vm_compute in Hs. injection Hs as Hs. subst s.
  eexists _, _, _. split; [exact Hreach|].
  split; [vm_compute; reflexivity|]. split; [left|].
  split; [vm_compute; reflexivity|].
  intros Hord.
  match type of Hord with
  | arrival_ordered ?q =>
      let q' := eval vm_compute in q in change q with q' in Hord
  end.
  specialize (Hord 1%nat 2%nat _ _ ltac:(lia) eq_refl eq_refl eq_refl).
  cbn in Hord. lia.
Qed.

(** C10: for every list of processors, every horizon [max_time <= 0] and
    every amount of fuel, [run_simulation] returns with every processor
    exactly as it was on entry: the guard [current_time < max_time]
    fails at time 0 and the loop body never runs. *)
Theorem nonpositive_horizon_noop (fuel : nat) (processors : list Processor)
        (max_time : Z) :
  max_time <= 0 ->
  run_simulation fuel processors max_time = Some processors.
Proof.
  intros Hmax. unfold run_simulation.
  assert (Hloop : sim_loop fuel max_time (initial_state processors)
                  = Some (initial_state processors)).
  { destruct fuel; cbn [sim_loop initial_state current_time];
      by destruct (Z.ltb_spec 0 max_time); [lia|]. }
  rewrite Hloop. cbn [option_map initial_state cores]. f_equal.
  rewrite map_map. cbn [proc]. apply map_id.
Qed.

Lemma nonpositive_horizon_noop_witness :
  run_simulation 0 [cpu0] (-3) = Some [cpu0].
Proof. apply (nonpositive_horizon_noop 0 [cpu0] (-3)). lia. Defined.

(** ** Further facts about the partitioner *)

Section PartitionerMore.
Context {F : PyFloat}.

Lemma first_fit_spec_ids ps t ps' :
  first_fit_spec ps t ps' -> ids_in_order ps -> ids_in_order ps'.
Proof.
  intros [(i & p & Hi & _ & _ & ->)|[_ ->]] Hids j q Hj.
  - destruct (decide (j = i)) as [->|Hne].
    + rewrite list_lookup_insert_eq in Hj by by eapply lookup_lt_Some.
      injection Hj as <-. cbn [add_task proc_id]. by apply Hids.
    + rewrite list_lookup_insert_ne in Hj by done. by apply Hids.
  - destruct (decide (j < length ps)%nat) as [Hlt|Hge].
    + rewrite lookup_app_l in Hj by done. by apply Hids.
    + rewrite lookup_app_r in Hj by lia.
      destruct (j - length ps)%nat as [|k] eqn:Hk; [|done].
      injection Hj as <-. cbn. unfold len. lia.
Qed.

Lemma placed_in_order_ids ps ts ps' :
  placed_in_order ps ts ps' -> ids_in_order ps -> ids_in_order ps'.
Proof.
  induction 1 as [ps|ps t ps1 ts ps' H1 _ IH]; [done|].
  intros Hids. by apply IH, (first_fit_spec_ids ps t).
Qed.

(** Each processor's tasks are a subsequence of the tasks placed so far,
    in the order of placement. *)
Lemma first_fit_spec_sublist ps t ps' placed :
  first_fit_spec ps t ps' ->
  Forall (fun p => assigned_tasks p `sublist_of` placed) ps ->
  Forall (fun p => assigned_tasks p `sublist_of` placed ++ [t]) ps'.
Proof.
  intros [(i & p & Hi & _ & _ & ->)|[_ ->]] Hps.
  - apply Forall_insert.
    + eapply Forall_impl; [exact Hps|]. intros q Hq. by apply sublist_inserts_r.
    + cbn. apply sublist_app; [|done].
      rewrite Forall_forall in Hps. apply Hps. by eapply list_elem_of_lookup_2.
  - apply Forall_app. split.
    + eapply Forall_impl; [exact Hps|]. intros q Hq. by apply sublist_inserts_r.
    + repeat constructor. cbn. by apply sublist_inserts_l.
Qed.

Lemma placed_in_order_sublist ps ts ps' placed :
  placed_in_order ps ts ps' ->
  Forall (fun p => assigned_tasks p `sublist_of` placed) ps ->
  Forall (fun p => assigned_tasks p `sublist_of` placed ++ ts) ps'.
Proof.
  intros H. revert placed.
  induction H as [ps|ps t ps1 ts ps' H1 _ IH]; intros placed Hps.
  - by rewrite app_nil_r.
  - rewrite (cons_middle t placed ts), app_assoc. apply IH.
    by apply (first_fit_spec_sublist ps t).
Qed.

Lemma sublist_sorted_by_key {A : Type} (key : A -> Z) (l k : list A) :
  l `sublist_of` k -> StronglySorted (key_le key) k ->
  StronglySorted (key_le key) l.
Proof.
  induction 1 as [|x l k Hlk IH|x l k Hlk IH]; intros Hs.
  - constructor.
  - apply StronglySorted_inv in Hs as [Hk Hx]. constructor; [by apply IH|].
    rewrite Forall_forall in Hx. apply Forall_forall. intros y Hy.
    apply Hx. by eapply elem_of_sublist.
  - apply StronglySorted_inv in Hs as [Hk _]. by apply IH.
Qed.

(** Every processor but the first was created for a task. *)
Lemma first_fit_spec_nonempty ps t ps' :
  first_fit_spec ps t ps' ->
  (forall (i : nat) p, ps !! S i = Some p -> assigned_tasks p <> []) ->
  forall (i : nat) p, ps' !! S i = Some p -> assigned_tasks p <> [].
Proof.
  intros [(i & p & Hi & _ & _ & ->)|[_ ->]] Hps j q Hj.
  - destruct (decide (S j = i)) as [<-|Hne].
    + rewrite list_lookup_insert_eq in Hj by by eapply lookup_lt_Some.
      injection Hj as <-. cbn. by destruct (assigned_tasks p).
    + rewrite list_lookup_insert_ne in Hj by done. by apply (Hps j).
  - destruct (decide (S j < length ps)%nat) as [Hlt|Hge].
    + rewrite lookup_app_l in Hj by done. by apply (Hps j).
    + rewrite lookup_app_r in Hj by lia.
      destruct (S j - length ps)%nat as [|k] eqn:Hk; [|done].
      by injection Hj as <-.
Qed.

Lemma placed_in_order_nonempty ps ts ps' :
  placed_in_order ps ts ps' ->
  (forall (i : nat) p, ps !! S i = Some p -> assigned_tasks p <> []) ->
  forall (i : nat) p, ps' !! S i = Some p -> assigned_tasks p <> [].
Proof.
  induction 1 as [ps|ps t ps1 ts ps' H1 _ IH]; [done|].
  intros Hps. by apply IH, (first_fit_spec_nonempty ps t).
Qed.

Lemma nonempty_tail_length (ps : list Processor) :
  (forall (i : nat) p, ps !! S i = Some p -> assigned_tasks p <> []) ->
  (length ps <= 1 + length (all_assigned ps))%nat.
Proof.
  destruct ps as [|p0 ps]; [cbn; lia|]. intros H.
  rewrite all_assigned_cons, length_app. cbn [length].
  assert (Htail : (length ps <= length (all_assigned ps))%nat); [|lia].
  assert (Hne : Forall (fun p => assigned_tasks p <> []) ps).
  { apply Forall_forall. intros p Hp.
    apply list_elem_of_lookup in Hp as [i Hi]. by apply (H i). }
  clear H. induction Hne as [|p ps Hp _ IH]; [done|].
  rewrite all_assigned_cons, length_app. cbn [length].
  destruct (assigned_tasks p); [done|cbn; lia].
Qed.

(** The test a task passed when it joined a processor that held tasks. *)
Lemma admission_test_same_tasks p q t verdict :
  assigned_tasks p = assigned_tasks q ->
  admission_test p t verdict -> admission_test q t verdict.
Proof.
  intros Heq (cu & tu & b & Hcu & Htu & Hb & Hv).
  exists cu, tu, b. unfold proc_utilization in *. by rewrite <- Heq.
Qed.

Lemma snoc_split {A : Type} (l pre post : list A) (x y : A) :
  l ++ [x] = pre ++ y :: post ->
  (post = [] /\ pre = l /\ y = x) \/
  (exists post', post = post' ++ [x] /\ l = pre ++ y :: post').
Proof.
  destruct post as [|z post _] using rev_ind.
  - intros H. apply app_inj_tail in H as [-> ->]. by left.
  - intros H. rewrite app_comm_cons, app_assoc in H.
    apply app_inj_tail in H as [-> ->]. right. by exists post.
Qed.

Lemma first_fit_spec_admitted ps t ps' :
  first_fit_spec ps t ps' ->
  Forall (fun p => forall pre u post,
            assigned_tasks p = pre ++ u :: post -> pre <> [] ->
            admission_test (holding (proc_id p) pre) u true) ps ->
  Forall (fun p => forall pre u post,
            assigned_tasks p = pre ++ u :: post -> pre <> [] ->
            admission_test (holding (proc_id p) pre) u true) ps'.
Proof.
  intros [(i & p & Hi & Hadm & _ & ->)|[_ ->]] Hps.
  - apply Forall_insert; [done|]. intros pre u post Heq Hpre.
    cbn [add_task assigned_tasks proc_id] in *.
    apply snoc_split in Heq as [(-> & -> & ->)|(post' & -> & Heq)].
    + by apply (admission_test_same_tasks p).
    + rewrite Forall_forall in Hps.
      apply (Hps p (list_elem_of_lookup_2 _ _ _ Hi) pre u post' Heq Hpre).
  - apply Forall_app. split; [done|]. repeat constructor.
    intros pre u post Heq Hpre. cbn in Heq.
    destruct pre as [|? [|? ?]]; done.
Qed.

Lemma placed_in_order_admitted ps ts ps' :
  placed_in_order ps ts ps' ->
  Forall (fun p => forall pre u post,
            assigned_tasks p = pre ++ u :: post -> pre <> [] ->
            admission_test (holding (proc_id p) pre) u true) ps ->
  Forall (fun p => forall pre u post,
            assigned_tasks p = pre ++ u :: post -> pre <> [] ->
            admission_test (holding (proc_id p) pre) u true) ps'.
Proof.
  induction 1 as [ps|ps t ps1 ts ps' H1 _ IH]; [done|].
  intros Hps. by apply IH, (first_fit_spec_admitted ps t).
Qed.

(** A task of period zero at the head of the order stops the partition. *)
Lemma place_all_zero_period t ts :
  period t = 0 ->
  place_all [new_processor 0] (t :: ts) = Raise ZeroDivisionError.
Proof.
  intros Hp. cbn [place_all]. unfold place. cbn [first_fit].
  unfold fits, proc_utilization. cbn [new_processor assigned_tasks utilizations].
  cbn [mbind result_bind]. unfold utilization, py_truediv. rewrite Hp.
  reflexivity.
Qed.

Lemma sorted_head_zero tasks :
  (forall t, t ∈ tasks -> 0 <= period t) ->
  (exists t, t ∈ tasks /\ period t = 0) ->
  exists h rest, sort_by_key period tasks = h :: rest /\ period h = 0.
Proof.
  intros Hnn (t & Ht & Hz).
  pose proof (sort_by_key_perm period tasks) as Hperm.
  pose proof (sort_by_key_sorted period tasks) as Hs.
  destruct (sort_by_key period tasks) as [|h rest].
  { rewrite <- Hperm in Ht. by apply elem_of_nil in Ht. }
  exists h, rest. split; [done|].
  assert (Hh : 0 <= period h) by (apply Hnn; rewrite <- Hperm; by left).
  assert (Hht : period h <= period t).
  { apply (sorted_head_le period h rest); [done|].
    apply list_elem_of_In. by rewrite Hperm. }
  lia.
Qed.

End PartitionerMore.

Section PartitionerCount.
Context {F : PyFloat}.

Lemma first_fit_spec_length ps t ps' :
  first_fit_spec ps t ps' -> (length ps <= length ps')%nat.
Proof.
  intros [(i & p & _ & _ & _ & ->)|[_ ->]].
  - by rewrite length_insert.
  - rewrite length_app. lia.
Qed.

Lemma placed_in_order_length ps ts ps' :
  placed_in_order ps ts ps' -> (length ps <= length ps')%nat.
Proof.
  induction 1 as [ps|ps t ps1 ts ps' H1 _ IH]; [done|].
  apply first_fit_spec_length in H1. lia.
Qed.

End PartitionerCount.

(** Two light tasks share processor 0 in exact arithmetic. *)
Lemma sqrt_2_gt : (7 / 5 < sqrt 2)%R.
Proof.
  replace (7 / 5)%R with (sqrt (49 / 25)).
  - apply sqrt_lt_1; lra.
  - replace (49 / 25)%R with ((7 / 5) * (7 / 5))%R by lra.
    apply sqrt_square. lra.
Qed.

Example light_tasks_partition :
  partition_tasks_ff_rm (F := ideal_float) [G1; G2] = Ok [holding 0 [G1; G2]].
Proof.
  assert (HvG1 : valid_task G1) by (unfold valid_task; cbn; lia).
  assert (HvG2 : valid_task G2) by (unfold valid_task; cbn; lia).
  pose proof float_int_limit_large as Hlim.
  assert (H1 : fits (F := ideal_float) (new_processor 0) G1 = Ok true).
  { rewrite fits_valid; [|cbn; constructor|done|unfold len; cbn; lia].
    f_equal. apply ideal_le_true.
    change (len (assigned_tasks (new_processor 0)) + 1) with 1.
    rewrite ideal_bound_1. cbn. lra. }
  assert (H2 : fits (F := ideal_float) (holding 0 [G1]) G2 = Ok true).
  { rewrite fits_valid; [|cbn; constructor; [done|constructor]|done
                         |unfold len; cbn; lia].
    f_equal. apply ideal_le_true.
    change (len (assigned_tasks (holding 0 [G1])) + 1) with 2.
    unfold bound_formula. cbn.
    replace (1 / 2)%R with (/ 2)%R by lra. rewrite Rpower_sqrt by lra.
    pose proof sqrt_2_gt. lra. }
  assert (P1 : place (F := ideal_float) [new_processor 0] G1 = Ok [holding 0 [G1]]).
  { unfold place. cbn [first_fit]. by rewrite H1. }
  assert (P2 : place (F := ideal_float) [holding 0 [G1]] G2
               = Ok [holding 0 [G1; G2]]).
  { unfold place. cbn [first_fit]. by rewrite H2. }
  unfold partition_tasks_ff_rm.
  change (sort_by_key period [G1; G2]) with [G1; G2].
  cbn [place_all]. rewrite P1. cbn [mbind result_bind]. by rewrite P2.
Qed.

(** ** Further facts about one turn of the loop *)


Lemma advance_frame now next p : frame_of (advance now next p) = frame_of p.
Proof. unfold advance. by destruct (active_job p). Qed.

Lemma complete_frame p : frame_of (complete p) = frame_of p.
Proof.
  unfold complete. destruct (active_job p); [|done]. by destruct (le_eps _).
Qed.

Lemma dispatch_frame p : frame_of (dispatch p) = frame_of p.
Proof.
  unfold dispatch.
  assert (Hpre : frame_of (preempt p) = frame_of p).
  { unfold preempt. destruct (active_job p); [|done]. by destruct (existsb _ _). }
  assert (Hsel : forall q, frame_of (select q) = frame_of q).
  { intros q. unfold select. destruct (active_job q); [done|].
    by destruct (ready_queue q). }
  by rewrite Hsel.
Qed.




(** The turn, processor by processor: each processor of the result
    comes from the processor of the same index. *)
Lemma loop_body_cores max_time s s' :
  loop_body max_time s = Continue s' ->
  exists next,
    cap_event max_time (current_time s)
      (min_etime (next_arrival (cores s))
                 (next_completion (current_time s) (cores s))) = Some next /\
    current_time s' = next /\
    Forall2
      (fun c c' =>
         exists mc d q mq,
           let p1 := complete (if 0 <? next - current_time s
                               then advance (current_time s) next (proc c)
                               else proc c) in
           handle_arrivals next (next_arrivals c) mc (ready_queue p1) = (d, mq, q) /\
           c' = mkCore (dispatch (set_queue p1 q)) d)
      (cores s) (cores s').
Proof.
  intros H. apply loop_body_Continue in H as (sb & Hsb & ->).
  apply before_dispatch_Some in Hsb as (next & Hcap & Hnext & Harr).
  cbn zeta in Harr. exists next. split; [done|]. split; [done|].
  cbn [cores]. apply arrivals_all_spec in Harr.
  apply Forall2_fmap_r. apply Forall2_fmap_l in Harr.
  eapply Forall2_impl; [exact Harr|].
  intros c c3 (mc & d & q & mq & Hh & ->). cbn beta in Hh.
  exists mc, d, q, mq. cbn zeta.
  destruct (0 <? next - current_time s); cbn [on_proc proc next_arrivals] in *;
    by split.
Qed.


Lemma Forall2_elem_l {A B : Type} (R : A -> B -> Prop) l k x :
  Forall2 R l k -> x ∈ l -> exists y, y ∈ k /\ R x y.
Proof.
  induction 1 as [|x' y l k Hxy _ IH]; intros Hx; [by apply elem_of_nil in Hx|].
  apply elem_of_cons in Hx as [->|Hx].
  - exists y. split; [by left|done].
  - destruct (IH Hx) as (y' & ? & ?). exists y'. split; [by right|done].
Qed.




Lemma advance_complete_frame now next p :
  frame_of (complete (if 0 <? next - now then advance now next p else p))
  = frame_of p.
Proof.
  rewrite complete_frame. destruct (0 <? next - now); [|done].
  apply advance_frame.
Qed.





Lemma loop_body_frame max_time s s' :
  loop_body max_time s = Continue s' ->
  map (fun c => frame_of (proc c)) (cores s')
  = map (fun c => frame_of (proc c)) (cores s).
Proof.
  intros Hstep. apply loop_body_cores in Hstep as (next & _ & _ & Hcores).
  induction Hcores as [|c c' cs cs' (mc & d & q & mq & _ & ->) _ IH]; [done|].
  cbn [map proc]. rewrite IH. f_equal.
  rewrite dispatch_frame.
  match goal with
  | |- frame_of (set_queue ?p1 q) = _ => change (frame_of (set_queue p1 q)) with (frame_of p1)
  end.
  apply advance_complete_frame.
Qed.


Lemma reachable_frame max_time s0 s :
  reachable max_time s0 s ->
  map (fun c => frame_of (proc c)) (cores s)
  = map (fun c => frame_of (proc c)) (cores s0).
Proof.
  induction 1 as [|s s' _ IH _ Hstep]; [done|].
  by rewrite (loop_body_frame _ _ _ Hstep).
Qed.


(** *** The arrival table on entry *)




(** ** The horizon *)

Lemma lcm_Ok a b : a <> 0 \/ b <> 0 -> lcm a b = Ok (Z.lcm a b).
Proof.
  intros Hab. unfold lcm, py_floordiv.
  assert (Hg : Z.gcd a b <> 0) by (rewrite Z.gcd_eq_0; tauto).
  destruct (Z.eqb_spec (Z.gcd a b) 0); [done|]. f_equal.
  unfold Z.lcm. rewrite Z.lcm_equiv1 by done.
  assert (Hdiv : (Z.gcd a b | a * b)).
  { apply Z.divide_mul_l, Z.gcd_divide_l. }
  destruct Hdiv as [k Hk]. rewrite Hk.
  pose proof (Z.gcd_nonneg a b).
  rewrite Z.abs_mul, (Z.abs_eq (Z.gcd a b)) by done.
  by rewrite !Z.div_mul.
Qed.

Lemma lcm_zero_zero : lcm 0 0 = Raise ZeroDivisionError.
Proof. reflexivity. Qed.

Lemma hyperperiod_from_nonzero h tasks :
  0 < h -> Forall (fun t => period t <> 0) tasks ->
  exists m, hyperperiod_from h tasks = Ok m /\ 0 < m /\ (h | m) /\
            (forall t, t ∈ tasks -> (period t | m)) /\
            (forall c, (h | c) -> (forall t, t ∈ tasks -> (period t | c)) -> (m | c)).
Proof.
  intros Hh Hnz. revert h Hh. induction Hnz as [|t ts Ht _ IH]; intros h Hh.
  - exists h. split; [done|]. split; [done|]. split; [done|].
    split; [by intros t Ht; apply elem_of_nil in Ht|]. by intros c Hc _.
  - cbn [hyperperiod_from]. rewrite lcm_Ok by (left; lia). cbn [mbind result_bind].
    assert (Hl : 0 < Z.lcm h (period t)).
    { pose proof (Z.lcm_nonneg h (period t)).
      assert (Z.lcm h (period t) <> 0); [|lia].
      rewrite Z.lcm_eq_0. lia. }
    destruct (IH _ Hl) as (m & -> & Hm & Hdiv & Hall & Hleast).
    exists m. split; [done|]. split; [done|]. split; [|split].
    + etrans; [apply Z.divide_lcm_l|exact Hdiv].
    + intros t' Ht'. apply elem_of_cons in Ht' as [->|Ht']; [|by apply Hall].
      etrans; [apply Z.divide_lcm_r|exact Hdiv].
    + intros c Hc Hts. apply Hleast.
      * apply Z.lcm_least; [done|]. apply Hts. by left.
      * intros t' Ht'. apply Hts. by right.
Qed.

(** Once the running value is 0 it stays 0 until a second period of 0
    makes the division fail. *)
Lemma hyperperiod_from_zero tasks :
  hyperperiod_from 0 tasks
  = if decide (zero_periods tasks = []) then Ok 0 else Raise ZeroDivisionError.
Proof.
  induction tasks as [|t ts IH]; [done|].
  cbn [hyperperiod_from]. unfold zero_periods. cbn [List.filter].
  destruct (Z.eqb_spec (period t) 0) as [->|Hne].
  - by rewrite lcm_zero_zero.
  - rewrite lcm_Ok by by right. rewrite Z.lcm_0_l. cbn [mbind result_bind].
    exact IH.
Qed.

Lemma hyperperiod_from_general h tasks :
  0 < h ->
  match zero_periods tasks with
  | [] => exists m, hyperperiod_from h tasks = Ok m /\ 0 < m
  | [_] => hyperperiod_from h tasks = Ok 0
  | _ :: _ :: _ => hyperperiod_from h tasks = Raise ZeroDivisionError
  end.
Proof.
  revert h. induction tasks as [|t ts IH]; intros h Hh.
  - by exists h.
  - cbn [hyperperiod_from]. rewrite lcm_Ok by (left; lia). cbn [mbind result_bind].
    unfold zero_periods in *. cbn [List.filter].
    destruct (Z.eqb_spec (period t) 0) as [Hz|Hnz].
    + rewrite Hz, Z.lcm_0_r, hyperperiod_from_zero. unfold zero_periods.
      destruct (List.filter _ ts) as [|z zs]; [done|].
      by rewrite decide_False.
    + apply IH. pose proof (Z.lcm_nonneg h (period t)).
      assert (Z.lcm h (period t) <> 0); [|lia]. rewrite Z.lcm_eq_0. lia.
Qed.

(** ** The Gantt chart *)

Lemma string_length_app (s1 s2 : string) :
  String.length (s1 +:+ s2) = (String.length s1 + String.length s2)%nat.
Proof. induction s1 as [|c s1 IH]; [done|]. simpl. by rewrite IH. Qed.

Lemma repeat_string_length s n :
  String.length (repeat_string s n) = (n * String.length s)%nat.
Proof.
  induction n as [|n IH]; [done|]. cbn [repeat_string].
  rewrite string_length_app, IH. lia.
Qed.

Lemma ljust_length w s : String.length (ljust w s) = Nat.max w (String.length s).
Proof.
  unfold ljust. rewrite string_length_app, repeat_string_length. cbn. lia.
Qed.

Lemma range_length n : length (range n) = Z.to_nat n.
Proof. unfold range. by rewrite length_map, length_seq. Qed.

Lemma range_elem n t : t ∈ range n <-> 0 <= t < n.
Proof.
  unfold range. rewrite list_elem_of_fmap. split.
  - intros (k & -> & Hk). apply list_elem_of_In, in_seq in Hk. lia.
  - intros Ht. exists (Z.to_nat t). split; [lia|].
    apply list_elem_of_In, in_seq. lia.
Qed.

Lemma find_segment_sound log t tid :
  find_segment log t = Some tid -> covers log t tid.
Proof.
  induction log as [|[[s e] tid'] log IH]; [done|]. cbn [find_segment].
  destruct ((s <=? t) && (t <? e)) eqn:Hhit.
  - intros [= ->]. apply andb_true_iff in Hhit as [Hs He].
    apply Z.leb_le in Hs. apply Z.ltb_lt in He.
    exists s, e. split; [by left|lia].
  - intros Hrest. destruct (IH Hrest) as (s' & e' & ? & ?).
    exists s', e'. split; [by right|done].
Qed.

Lemma find_segment_complete log t tid :
  covers log t tid -> is_Some (find_segment log t).
Proof.
  intros (s & e & Hin & Hcov).
  induction log as [|[[s' e'] tid'] log IH]; [by apply elem_of_nil in Hin|].
  cbn [find_segment].
  destruct ((s' <=? t) && (t <? e')) eqn:Hhit; [by eexists|].
  apply elem_of_cons in Hin as [Heq|Hin]; [|by apply IH].
  injection Heq as <- <- <-.
  apply andb_false_iff in Hhit as [Hhit|Hhit]; [apply Z.leb_gt in Hhit|apply Z.ltb_ge in Hhit]; lia.
Qed.

(** In an ordered log at most one segment covers a slot. *)
Lemma covers_unique log t tid tid' :
  segments_ordered log -> covers log t tid -> covers log t tid' -> tid = tid'.
Proof.
  intros Hord (s & e & Hin & Hcov) (s' & e' & Hin' & Hcov').
  apply list_elem_of_lookup in Hin as [i Hi].
  apply list_elem_of_lookup in Hin' as [j Hj].
  destruct (Nat.lt_trichotomy i j) as [Hlt|[->|Hgt]].
  - destruct (Hord i j _ _ Hlt Hi Hj) as [Hle _]. cbn in Hle. lia.
  - congruence.
  - destruct (Hord j i _ _ Hgt Hj Hi) as [Hle _]. cbn in Hle. lia.
Qed.

Lemma fold_left_app_length {A : Type} (f : A -> string) (l : list A) (init : string) (w : nat) :
  (forall x, x ∈ l -> String.length (f x) = w) ->
  String.length (fold_left (fun acc x => acc +:+ f x) l init)
  = (String.length init + w * length l)%nat.
Proof.
  revert init. induction l as [|x l IH]; intros init Hw; cbn [fold_left length].
  - lia.
  - rewrite IH by (intros y Hy; apply Hw; by right).
    rewrite string_length_app, (Hw x) by by left. lia.
Qed.

Lemma gantt_cell_length log t :
  (forall e, e ∈ log -> (String.length (seg_task e) <= 3)%nat) ->
  String.length (gantt_cell log t) = 5%nat.
Proof.
  intros Hshort. unfold gantt_cell.
  destruct (find_segment log t) as [tid|] eqn:Hfind; [|done].
  apply find_segment_sound in Hfind as (s & e & Hin & _).
  specialize (Hshort _ Hin). cbn [seg_task snd] in Hshort.
  rewrite !string_length_app, ljust_length. cbn [String.length]. lia.
Qed.

(** The chart of scenario 1 over its first six time units. *)
Example scenario_1_chart :
  option_map (fun ps => print_gantt ps 6) (run_simulation 100 [cpu0] 6)
  = Some [newline +:+ "==================================================";
          "SIMULATION RESULTS (ASCII Gantt)";
          "==================================================" +:+ newline;
          "Time: 0    1    2    3    4    5    6    ";
          "      |----|----|----|----|----|----|";
          "CPU 0: [T1 ][T3 ][T1 ][T3 ][T1 ][T3 ]";
          newline].
Proof. by vm_compute. Qed.

(** The horizon of the main block. *)
Example main_hyperperiod : hyperperiod [T1; T2; T3] = Ok 20.
Proof. reflexivity. Qed.

(** ** The job of a highest-priority task *)


(** ** The last turn *)





(** ** Accounting of work *)














(** *** The job counters *)













(** ** Further properties of the partitioner *)

(** X1: in the list the partitioner returns, the processor at index [i]
    carries the identifier [i]. *)
Theorem partition_ids_in_order {F : PyFloat} (tasks : list Task)
        (ps : list Processor) :
  partition_tasks_ff_rm tasks = Ok ps ->
  forall (i : nat) (p : Processor), ps !! i = Some p -> proc_id p = Z.of_nat i.
Proof.
  intros H. apply place_all_in_order in H.
  apply (placed_in_order_ids _ _ _ H).
  intros [|i] p Hp; [by injection Hp as <-|done].
Qed.

Lemma partition_ids_in_order_witness :
  partition_tasks_ff_rm (F := ideal_float) [F1; F2; F3]
  = Ok [holding 0 [F1]; holding 1 [F2]; holding 2 [F3]] /\
  forall (i : nat) (p : Processor),
    [holding 0 [F1]; holding 1 [F2]; holding 2 [F3]] !! i = Some p ->
    proc_id p = Z.of_nat i.
Proof.
  split; [exact test_ffrm_partition|].
  apply (partition_ids_in_order (F := ideal_float) [F1; F2; F3]).
  exact test_ffrm_partition.
Defined.

(** X2: the tasks of every processor the partitioner returns stand in
    the order in which the sorted input holds them: they are a
    subsequence of the input sorted by period (stable), hence in
    ascending order of period. *)
Theorem partition_tasks_in_period_order {F : PyFloat} (tasks : list Task)
        (ps : list Processor) (p : Processor) :
  partition_tasks_ff_rm tasks = Ok ps -> p ∈ ps ->
  assigned_tasks p `sublist_of` sort_by_key period tasks /\
  StronglySorted (key_le period) (assigned_tasks p).
Proof.
  intros H Hp. apply place_all_in_order in H.
  assert (Hsub : assigned_tasks p `sublist_of` sort_by_key period tasks).
  { assert (Hall : Forall (fun q => assigned_tasks q `sublist_of`
                                     [] ++ sort_by_key period tasks) ps)
      by (apply (placed_in_order_sublist _ _ _ [] H); by repeat constructor).
    rewrite Forall_forall in Hall. by apply Hall. }
  split; [done|].
  apply (sublist_sorted_by_key period _ _ Hsub), sort_by_key_sorted.
Qed.

Lemma partition_tasks_in_period_order_witness :
  assigned_tasks (holding 1 [F2]) `sublist_of` sort_by_key period [F1; F2; F3] /\
  StronglySorted (key_le period) (assigned_tasks (holding 1 [F2])).
Proof.
  apply (partition_tasks_in_period_order (F := ideal_float) [F1; F2; F3]
           [holding 0 [F1]; holding 1 [F2]; holding 2 [F3]]).
  - exact test_ffrm_partition.
  - right. left.
Defined.

(** X3: the partitioner returns at least one processor and at most one
    more than there are tasks, and every processor after the first
    holds at least one task; only the first can be empty. *)
Theorem partition_processor_count {F : PyFloat} (tasks : list Task)
        (ps : list Processor) :
  partition_tasks_ff_rm tasks = Ok ps ->
  (1 <= length ps <= 1 + length tasks)%nat /\
  forall (i : nat) (p : Processor),
    ps !! S i = Some p -> assigned_tasks p <> [].
Proof.
  intros H. apply place_all_in_order in H.
  assert (Hne : forall (i : nat) p, ps !! S i = Some p -> assigned_tasks p <> [])
    by (apply (placed_in_order_nonempty _ _ _ H); by intros i p Hp).
  split; [|done]. split.
  - apply placed_in_order_length in H. cbn in H. lia.
  - pose proof (nonempty_tail_length ps Hne) as Hlen.
    pose proof (Permutation_length (placed_in_order_assigned _ _ _ H)) as Hperm.
    rewrite length_app, sort_by_key_length in Hperm. cbn in Hperm. lia.
Qed.

Lemma partition_processor_count_witness :
  (1 <= length [holding 0 [F1]; holding 1 [F2]; holding 2 [F3]]
     <= 1 + length [F1; F2; F3])%nat /\
  forall (i : nat) (p : Processor),
    [holding 0 [F1]; holding 1 [F2]; holding 2 [F3]] !! S i = Some p ->
    assigned_tasks p <> [].
Proof.
  apply (partition_processor_count (F := ideal_float) [F1; F2; F3]).
  exact test_ffrm_partition.
Defined.

(** X4: when no period is negative and some task has period zero, the
    partitioner raises [ZeroDivisionError]: the task of period zero comes
    first in the order and its utilization is computed before anything
    is placed. *)
Theorem partition_zero_period_raises {F : PyFloat} (tasks : list Task) :
  Forall (fun t => 0 <= period t) tasks ->
  Exists (fun t => period t = 0) tasks ->
  partition_tasks_ff_rm tasks = Raise ZeroDivisionError.
Proof.
  intros Hnn Hz. unfold partition_tasks_ff_rm.
  destruct (sorted_head_zero tasks) as (h & rest & -> & Hh).
  - by apply Forall_forall.
  - by apply Exists_exists.
  - by apply place_all_zero_period.
Qed.

Lemma partition_zero_period_raises_witness :
  partition_tasks_ff_rm (F := ideal_float) [F1; task_Z; F3]
  = Raise ZeroDivisionError.
Proof.
  apply (partition_zero_period_raises (F := ideal_float) [F1; task_Z; F3]).
  - repeat (constructor; [cbn; lia|]). constructor.
  - apply Exists_cons_tl, Exists_cons_hd. reflexivity.
Defined.

(** X5: in the partition returned, every task that stands behind other
    tasks on its processor passed the admission test when it joined:
    the utilization of the tasks before it plus its own was at most
    [liu_layland_bound] of their number plus one.  (The first task of a
    processor created for it is placed untested.) *)
Theorem partition_admitted {F : PyFloat} (tasks : list Task)
        (ps : list Processor) (p : Processor)
        (pre : list Task) (u : Task) (post : list Task) :
  partition_tasks_ff_rm tasks = Ok ps -> p ∈ ps ->
  assigned_tasks p = pre ++ u :: post -> pre <> [] ->
  exists current_u tu b,
    proc_utilization (holding (proc_id p) pre) = Ok current_u /\
    utilization u = Ok tu /\
    liu_layland_bound (len pre + 1) = Ok b /\
    f_le (f_add current_u tu) b = true.
Proof.
  intros H Hp Heq Hpre. apply place_all_in_order in H.
  assert (Hall : Forall (fun p => forall pre u post,
                           assigned_tasks p = pre ++ u :: post -> pre <> [] ->
                           admission_test (holding (proc_id p) pre) u true) ps).
  { apply (placed_in_order_admitted _ _ _ H). repeat constructor.
    intros pre' u' post' Heq'. by destruct pre'. }
  rewrite Forall_forall in Hall.
  destruct (Hall p Hp pre u post Heq Hpre) as (cu & tu & b & ? & ? & ? & ?).
  by exists cu, tu, b.
Qed.

Lemma partition_admitted_witness :
  exists current_u tu b,
    proc_utilization (F := ideal_float) (holding 0 [G1]) = Ok current_u /\
    utilization G2 = Ok tu /\
    liu_layland_bound (len [G1] + 1) = Ok b /\
    f_le (f_add current_u tu) b = true.
Proof.
  apply (partition_admitted (F := ideal_float) [G1; G2] [holding 0 [G1; G2]]
           (holding 0 [G1; G2]) [G1] G2 []).
  - exact light_tasks_partition.
  - left.
  - reflexivity.
  - discriminate.
Defined.

(** ** Further properties of the simulation *)

(** X6: [run_simulation] returns as many processors as it was given, in
    the same order, each with the identifier and the assigned tasks it
    came with: no task moves and none is added or dropped. *)
Theorem simulation_keeps_assignment (fuel : nat) (processors ps : list Processor)
        (max_time : Z) :
  run_simulation fuel processors max_time = Some ps ->
  map (fun p => (proc_id p, assigned_tasks p)) ps
  = map (fun p => (proc_id p, assigned_tasks p)) processors.
Proof.
  intros H. apply run_simulation_Some in H as (s & Hreach & ->).
  apply reachable_frame in Hreach. rewrite map_map.
  etrans; [exact Hreach|]. cbn [initial_state cores]. by rewrite map_map.
Qed.

Lemma simulation_keeps_assignment_witness :
  exists ps,
    run_simulation 21 [cpu0] 20 = Some ps /\
    map (fun p => (proc_id p, assigned_tasks p)) ps
    = map (fun p => (proc_id p, assigned_tasks p)) [cpu0].
Proof.
  destruct (run_simulation 21 [cpu0] 20) as [ps|] eqn:Hrun;
    [|vm_compute in Hrun; discriminate].
  exists ps. split; [done|].
  exact (simulation_keeps_assignment 21 [cpu0] ps 20 Hrun).
Defined.







(** X10: after any turn of the loop, from any state, a processor that
    runs no job has an empty ready queue: a processor is never left idle
    while a job waits. *)
Theorem never_idle_with_ready_job (max_time : Z) (s s' : SimState) (c : Core) :
  loop_body max_time s = Continue s' -> c ∈ cores s' ->
  active_job (proc c) = None -> ready_queue (proc c) = [].
Proof.
  intros H Hc Hidle. apply loop_body_Continue in H as (sb & _ & ->).
  cbn [cores] in Hc. apply list_elem_of_fmap in Hc as (cb & -> & _).
  by apply dispatch_idle_empty.
Qed.

Lemma never_idle_with_ready_job_witness :
  exists s' c,
    loop_body 20 (initial_state [new_processor 0]) = Continue s' /\
    c ∈ cores s' /\ active_job (proc c) = None /\ ready_queue (proc c) = [].
Proof.
  destruct (loop_body 20 (initial_state [new_processor 0])) as [|s'] eqn:Hstep;
    [vm_compute in Hstep; discriminate|].
  pose proof Hstep as Hstep'.
  vm_compute in Hstep. injection Hstep as Hstep. subst s'.
  eexists _, _. split; [reflexivity|]. split; [left|]. split; [reflexivity|].
  eapply (never_idle_with_ready_job 20 (initial_state [new_processor 0])).
  - exact Hstep'.
  - left.
  - reflexivity.
Defined.

(** X11: the dispatcher neither loses nor duplicates nor alters a job:
    the jobs a processor owns after dispatch, the running one and the
    ready ones, are those it owned before, and its log, identifier and
    assigned tasks are untouched. *)
Theorem dispatch_conserves_jobs (p : Processor) :
  jobs_of (dispatch p) ≡ₚ jobs_of p /\
  execution_log (dispatch p) = execution_log p /\
  proc_id (dispatch p) = proc_id p /\
  assigned_tasks (dispatch p) = assigned_tasks p.
Proof.
  split; [apply dispatch_jobs|]. split; [apply dispatch_log|].
  pose proof (dispatch_frame p) as Hf. unfold frame_of in Hf.
  by injection Hf as -> ->.
Qed.

(** X12: the [break] of step A is never taken: whenever the guard of the
    loop holds, the turn runs to its end. *)
Theorem break_never_taken (max_time : Z) (s : SimState) :
  current_time s < max_time -> loop_body max_time s <> Break.
Proof.
  intros Hguard. destruct (loop_body_continues max_time s Hguard) as [s' ->].
  discriminate.
Qed.

Lemma break_never_taken_witness :
  current_time (initial_state [cpu0]) < 20 /\
  loop_body 20 (initial_state [cpu0]) <> Break.
Proof.
  split; [by vm_compute|].
  apply (break_never_taken 20 (initial_state [cpu0])). by vm_compute.
Defined.

(** X13: the lookup [job_counters[task.id]] never misses: for any list
    of processors, at every head of the loop every task of every arrival
    table has an entry in [job_counters]. *)
Theorem job_counter_lookup_never_misses (processors : list Processor)
        (max_time : Z) (s : SimState) (c : Core) (t : Task) (a : Z) :
  reachable max_time (initial_state processors) s ->
  c ∈ cores s -> (t, a) ∈ next_arrivals c ->
  is_Some (job_counters s !! id t).
Proof.
  intros Hreach Hc He.
  by apply (reachable_counters_cover _ _ _ Hreach c (t, a)).
Qed.

Lemma job_counter_lookup_never_misses_witness :
  is_Some (job_counters (initial_state [cpu0]) !! id T1).
Proof.
  apply (job_counter_lookup_never_misses [cpu0] 20 (initial_state [cpu0])
           (mkCore cpu0 (arrivals_at_zero (assigned_tasks cpu0))) T1 0).
  - constructor.
  - left.
  - vm_compute. left.
Defined.

(** ** Properties of the horizon computation *)

(** X14: [lcm(a, b)] raises [ZeroDivisionError] when both arguments are
    0; otherwise it returns the least common multiple: a non-negative
    integer that both arguments divide and that divides every integer
    both divide (0 when one argument is 0). *)
Theorem lcm_least_common_multiple (a b : Z) :
  (a = 0 /\ b = 0 -> lcm a b = Raise ZeroDivisionError) /\
  (a <> 0 \/ b <> 0 ->
   exists m, lcm a b = Ok m /\ 0 <= m /\ (a | m) /\ (b | m) /\
             forall c, (a | c) -> (b | c) -> (m | c)).
Proof.
  split.
  - intros [-> ->]. apply lcm_zero_zero.
  - intros Hab. exists (Z.lcm a b). split; [by apply lcm_Ok|].
    split; [apply Z.lcm_nonneg|]. split; [apply Z.divide_lcm_l|].
    split; [apply Z.divide_lcm_r|]. intros c. apply Z.lcm_least.
Qed.

(** X15: when no task has period 0, the horizon loop returns a positive
    integer that every period divides and that divides every integer all
    periods divide: the least common multiple of the periods (1 for no
    task). *)
Theorem hyperperiod_least_common_multiple (tasks : list Task) :
  Forall (fun t => period t <> 0) tasks ->
  exists h, hyperperiod tasks = Ok h /\ 0 < h /\
            (forall t, t ∈ tasks -> (period t | h)) /\
            (forall c, (forall t, t ∈ tasks -> (period t | c)) -> (h | c)).
Proof.
  intros Hnz. unfold hyperperiod.
  destruct (hyperperiod_from_nonzero 1 tasks) as (m & Hm & Hpos & _ & Hall & Hleast);
    [lia|done|].
  exists m. repeat split; try done.
  intros c Hc. apply Hleast; [apply Z.divide_1_l|done].
Qed.

Lemma hyperperiod_least_common_multiple_witness :
  exists h, hyperperiod [T1; T2; T3] = Ok h /\ 0 < h /\
            (forall t, t ∈ [T1; T2; T3] -> (period t | h)) /\
            (forall c, (forall t, t ∈ [T1; T2; T3] -> (period t | c)) -> (h | c)).
Proof.
  apply (hyperperiod_least_common_multiple [T1; T2; T3]).
  repeat (constructor; [cbn; lia|]). constructor.
Defined.

(** X16: the horizon loop by the number of tasks of period 0: with none
    it returns a positive integer, with exactly one it returns 0, and
    with two or more it raises [ZeroDivisionError] (at the second one). *)
Theorem hyperperiod_zero_periods (tasks : list Task) :
  match zero_periods tasks with
  | [] => exists h, hyperperiod tasks = Ok h /\ 0 < h
  | [_] => hyperperiod tasks = Ok 0
  | _ :: _ :: _ => hyperperiod tasks = Raise ZeroDivisionError
  end.
Proof. apply hyperperiod_from_general. lia. Qed.

(** ** Properties of the Gantt chart *)

(** X17: for a log whose segments are in order and do not overlap, the
    search that fills slot [t] of the chart finds task [tid] exactly
    when a segment of [tid] covers the slot, [start <= t < end], and
    finds nothing exactly when no segment covers it. *)
Theorem gantt_lookup_finds_running_task (log : list segment) (t : Z) :
  segments_ordered log ->
  (forall tid, find_segment log t = Some tid <-> covers log t tid) /\
  (find_segment log t = None <-> forall tid, ~ covers log t tid).
Proof.
  intros Hord. split.
  - intros tid. split; [apply find_segment_sound|].
    intros Hcov. destruct (find_segment_complete _ _ _ Hcov) as [tid' Hfind].
    rewrite Hfind. f_equal.
    by apply (covers_unique log t); [|apply find_segment_sound|].
  - split.
    + intros Hnone tid Hcov.
      destruct (find_segment_complete _ _ _ Hcov) as [tid' Hfind]. congruence.
    + intros Hnot. destruct (find_segment log t) as [tid|] eqn:Hfind; [|done].
      by apply find_segment_sound, Hnot in Hfind.
Qed.

Lemma gantt_lookup_finds_running_task_witness :
  (forall tid, find_segment [(0, 3, "S"); (10, 13, "S")] 11 = Some tid
               <-> covers [(0, 3, "S"); (10, 13, "S")] 11 tid) /\
  (find_segment [(0, 3, "S"); (10, 13, "S")] 11 = None
   <-> forall tid, ~ covers [(0, 3, "S"); (10, 13, "S")] 11 tid).
Proof.
  apply (gantt_lookup_finds_running_task [(0, 3, "S"); (10, 13, "S")] 11).
  intros [|[|i]] [|[|[|j]]] e1 e2 Hij Hi Hj; try lia; try discriminate.
  injection Hi as <-. injection Hj as <-. cbn. lia.
Defined.

(** X18: when every task identifier in the log has at most three
    characters, the row of a processor is its label ["CPU <id>: "]
    followed by one cell of exactly five characters per time unit of
    the horizon, the width of one ["|----"] of the separator line. *)
Theorem gantt_row_width (p : Processor) (max_time : Z) :
  (forall e, e ∈ execution_log p -> (String.length (seg_task e) <= 3)%nat) ->
  String.length (gantt_row p max_time)
  = (6 + String.length (str_of_int (proc_id p)) + 5 * Z.to_nat max_time)%nat /\
  String.length (gantt_separator max_time) = (7 + 5 * Z.to_nat max_time)%nat.
Proof.
  intros Hshort. split.
  - unfold gantt_row.
    rewrite (fold_left_app_length (gantt_cell (execution_log p)) _ _ 5)
      by (intros t _; by apply gantt_cell_length).
    rewrite range_length.
    rewrite !string_length_app. cbn [String.length]. lia.
  - unfold gantt_separator, py_repeat.
    rewrite !string_length_app, repeat_string_length. cbn [String.length]. lia.
Qed.

Lemma gantt_row_width_witness :
  String.length (gantt_row (mkProcessor 0 [task_S] None [] [(0, 3, "S")]) 12)
  = (6 + String.length (str_of_int 0) + 5 * Z.to_nat 12)%nat /\
  String.length (gantt_separator 12) = (7 + 5 * Z.to_nat 12)%nat.
Proof.
  apply (gantt_row_width (mkProcessor 0 [task_S] None [] [(0, 3, "S")]) 12).
  intros e He. apply list_elem_of_singleton in He as ->. cbn. lia.
Defined.







(** ** Accounting of work *)





(** ** The pipeline of the main block *)



(** ** Job numbers *)


